(** * SpotifyTidalSync: the synchronization engine of spotify.py

    A shallow embedding of [SyncManager] (spotify.py, lines 243-601): the
    track matcher, the session check, the quality fallback, the per-tick
    [sync_logic], the control loop, shutdown and the manual override.

    The engine talks to three collaborators: the Spotify Web API
    ([self.sp]), the Tidal session ([self.tidal]) and the VLC player
    ([self.player]).  They are modelled by a [World] record holding what
    the collaborators answer; the engine's own fields are the record
    [SyncManager].  Python code is written in a small monad with state,
    exceptions, early [return] and a log of the calls made to the
    collaborators.  Strings are strings of 8-bit characters; [logger]
    calls and [time.sleep] have no counterpart. *)

From Stdlib Require Import ZArith QArith Lia Bool List String Ascii.
From stdpp Require Import gmap strings list.
Import ListNotations.

Local Close Scope Q_scope.

Local Open Scope string_scope.
Local Open Scope list_scope.
Local Open Scope Z_scope.

(** ** Exceptions and replies of the collaborators *)

(** The exception classes the engine can meet; all derive from
    [Exception], so a bare [except:] and [except Exception] catch the
    same ones. *)
Inductive exn : Type :=
| SpotifyException
| TidalException
| VlcException
| CallbackException
| AttributeError
| TypeError
| ZeroDivisionError
| IndexError.

(** What a collaborator answers to a call: a value, or an exception. *)
Inductive reply (A : Type) : Type :=
| Reply (a : A)
| Failure (e : exn).
Arguments Reply {A} a.
Arguments Failure {A} e.

(** ** Data model *)

(** A Spotify track object: [sp_track['id']], ['name'],
    ['artists'][i]['name'], ['duration_ms'], ['album']['images'][i]['url']. *)
Record SpTrack : Type := {
  sp_id : string;
  sp_name : string;
  sp_artists : list string;
  sp_duration_ms : Z;
  sp_images : list string
}.

(** The dictionary returned by [sp.current_playback()]; [volume_percent]
    is [None] when the device reports no volume. *)
Record Playback : Type := {
  item : option SpTrack;
  is_playing : bool;
  progress_ms : Z;
  volume_percent : option Z
}.

(** A [tidalapi] track: [t.id], [t.name], [t.duration] (seconds). *)
Record TidalTrack : Type := {
  t_id : Z;
  t_name : string;
  t_duration : Z
}.

(** A member of [tidalapi.Quality], named by its attribute; [None] is
    Python's [None] (the value of [PREFERRED_QUALITY] when the library
    offers none of the probed names). *)
Definition quality : Type := option string.

(** The state of the VLC media player as the engine reads it:
    [is_playing()], [get_time()], [get_length()]. *)
Record Player : Type := {
  playing : bool;
  time : Z;
  duration : Z
}.

(** The dictionary built by [get_debug_info]; [vlc_time] is kept as the
    number of milliseconds that the source renders with [timedelta]. *)
Record DebugInfo : Type := {
  info_status : string;
  info_tidal_track : string;
  info_vlc_time : Z;
  info_image_url : option string
}.

(** A registered callback: invoking it either returns or raises. *)
Inductive callback : Type := Callback (raises : bool).

(** The calls the engine makes to its collaborators, as logged.
    [TidalTokenRefresh] is the session mechanism's refresh request
    ([tidalapi]'s [token_refresh]). *)
Inductive call : Type :=
| SpCurrentPlayback
| SpVolume (v : Z)
| SpPausePlayback
| SpNextTrack
| SpStartPlayback
| SpSeekTrack (pos : Z)
| TidalCheckLogin
| TidalTokenRefresh
| TidalTrackById (id : Z)
| TidalSearch (query : string) (limit : Z)
| TidalGetUrl (q : quality) (id : Z)
| TidalAddFavorite (id : Z)
| VlcPlayUrl (url : string)
| VlcPause
| VlcResume
| VlcStop
| SaveMapping (source_id : string) (target_id : Z)
| RequestManualMatch (source_id : string)
| GuiCallback (info : DebugInfo)
| ShowError.

(** The collaborators.  [check_login n] is the answer to the [n]-th
    validity check made so far; [vlc_play url] is the player as found
    after [play_url url] and the half-second sleep. *)
Record World : Type := {
  sp_playback : reply (option Playback);
  sp_rejects : call -> bool;
  check_login : nat -> reply bool;
  checks_made : nat;
  tidal_track : Z -> reply TidalTrack;
  tidal_search : string -> Z -> reply (list TidalTrack);
  config_quality : quality;
  get_url : quality -> TidalTrack -> reply (option string);
  add_favorite : Z -> reply unit;
  vlc : Player;
  vlc_play : string -> reply Player;
  mappings : gmap string Z;
  mappings_writable : bool
}.

(** The fields of [SyncManager.__init__]; [sp] is [None] until the
    Spotify login succeeded. *)
Record SyncManager : Type := {
  sp : option unit;
  gui_callback : option callback;
  request_manual_match : option callback;
  running : bool;
  current_spotify_track : option SpTrack;
  current_tidal_track : option TidalTrack;
  status : string;
  is_paused_waiting : bool;
  current_image_url : option string;
  mute_spotify : bool;
  auto_favorite : bool;
  current_song_favorited : bool;
  waiting_for_user_selection : bool
}.

Record state : Type := State { self : SyncManager; world : World }.

(** ** Field assignments *)

Definition set_sp (v : option unit) (m : SyncManager) : SyncManager :=
  {| sp := v; gui_callback := gui_callback m;
     request_manual_match := request_manual_match m; running := running m;
     current_spotify_track := current_spotify_track m;
     current_tidal_track := current_tidal_track m; status := status m;
     is_paused_waiting := is_paused_waiting m;
     current_image_url := current_image_url m; mute_spotify := mute_spotify m;
     auto_favorite := auto_favorite m;
     current_song_favorited := current_song_favorited m;
     waiting_for_user_selection := waiting_for_user_selection m |}.

Definition set_running (v : bool) (m : SyncManager) : SyncManager :=
  {| sp := sp m; gui_callback := gui_callback m;
     request_manual_match := request_manual_match m; running := v;
     current_spotify_track := current_spotify_track m;
     current_tidal_track := current_tidal_track m; status := status m;
     is_paused_waiting := is_paused_waiting m;
     current_image_url := current_image_url m; mute_spotify := mute_spotify m;
     auto_favorite := auto_favorite m;
     current_song_favorited := current_song_favorited m;
     waiting_for_user_selection := waiting_for_user_selection m |}.

Definition set_current_spotify_track (v : option SpTrack) (m : SyncManager)
  : SyncManager :=
  {| sp := sp m; gui_callback := gui_callback m;
     request_manual_match := request_manual_match m; running := running m;
     current_spotify_track := v;
     current_tidal_track := current_tidal_track m; status := status m;
     is_paused_waiting := is_paused_waiting m;
     current_image_url := current_image_url m; mute_spotify := mute_spotify m;
     auto_favorite := auto_favorite m;
     current_song_favorited := current_song_favorited m;
     waiting_for_user_selection := waiting_for_user_selection m |}.

Definition set_current_tidal_track (v : option TidalTrack) (m : SyncManager)
  : SyncManager :=
  {| sp := sp m; gui_callback := gui_callback m;
     request_manual_match := request_manual_match m; running := running m;
     current_spotify_track := current_spotify_track m;
     current_tidal_track := v; status := status m;
     is_paused_waiting := is_paused_waiting m;
     current_image_url := current_image_url m; mute_spotify := mute_spotify m;
     auto_favorite := auto_favorite m;
     current_song_favorited := current_song_favorited m;
     waiting_for_user_selection := waiting_for_user_selection m |}.

Definition set_status (v : string) (m : SyncManager) : SyncManager :=
  {| sp := sp m; gui_callback := gui_callback m;
     request_manual_match := request_manual_match m; running := running m;
     current_spotify_track := current_spotify_track m;
     current_tidal_track := current_tidal_track m; status := v;
     is_paused_waiting := is_paused_waiting m;
     current_image_url := current_image_url m; mute_spotify := mute_spotify m;
     auto_favorite := auto_favorite m;
     current_song_favorited := current_song_favorited m;
     waiting_for_user_selection := waiting_for_user_selection m |}.

Definition set_is_paused_waiting (v : bool) (m : SyncManager) : SyncManager :=
  {| sp := sp m; gui_callback := gui_callback m;
     request_manual_match := request_manual_match m; running := running m;
     current_spotify_track := current_spotify_track m;
     current_tidal_track := current_tidal_track m; status := status m;
     is_paused_waiting := v;
     current_image_url := current_image_url m; mute_spotify := mute_spotify m;
     auto_favorite := auto_favorite m;
     current_song_favorited := current_song_favorited m;
     waiting_for_user_selection := waiting_for_user_selection m |}.

Definition set_current_image_url (v : option string) (m : SyncManager)
  : SyncManager :=
  {| sp := sp m; gui_callback := gui_callback m;
     request_manual_match := request_manual_match m; running := running m;
     current_spotify_track := current_spotify_track m;
     current_tidal_track := current_tidal_track m; status := status m;
     is_paused_waiting := is_paused_waiting m;
     current_image_url := v; mute_spotify := mute_spotify m;
     auto_favorite := auto_favorite m;
     current_song_favorited := current_song_favorited m;
     waiting_for_user_selection := waiting_for_user_selection m |}.

Definition set_current_song_favorited (v : bool) (m : SyncManager)
  : SyncManager :=
  {| sp := sp m; gui_callback := gui_callback m;
     request_manual_match := request_manual_match m; running := running m;
     current_spotify_track := current_spotify_track m;
     current_tidal_track := current_tidal_track m; status := status m;
     is_paused_waiting := is_paused_waiting m;
     current_image_url := current_image_url m; mute_spotify := mute_spotify m;
     auto_favorite := auto_favorite m;
     current_song_favorited := v;
     waiting_for_user_selection := waiting_for_user_selection m |}.

Definition set_waiting_for_user_selection (v : bool) (m : SyncManager)
  : SyncManager :=
  {| sp := sp m; gui_callback := gui_callback m;
     request_manual_match := request_manual_match m; running := running m;
     current_spotify_track := current_spotify_track m;
     current_tidal_track := current_tidal_track m; status := status m;
     is_paused_waiting := is_paused_waiting m;
     current_image_url := current_image_url m; mute_spotify := mute_spotify m;
     auto_favorite := auto_favorite m;
     current_song_favorited := current_song_favorited m;
     waiting_for_user_selection := v |}.

Definition set_mute_spotify (v : bool) (m : SyncManager) : SyncManager :=
  {| sp := sp m; gui_callback := gui_callback m;
     request_manual_match := request_manual_match m; running := running m;
     current_spotify_track := current_spotify_track m;
     current_tidal_track := current_tidal_track m; status := status m;
     is_paused_waiting := is_paused_waiting m;
     current_image_url := current_image_url m; mute_spotify := v;
     auto_favorite := auto_favorite m;
     current_song_favorited := current_song_favorited m;
     waiting_for_user_selection := waiting_for_user_selection m |}.

Definition set_auto_favorite (v : bool) (m : SyncManager) : SyncManager :=
  {| sp := sp m; gui_callback := gui_callback m;
     request_manual_match := request_manual_match m; running := running m;
     current_spotify_track := current_spotify_track m;
     current_tidal_track := current_tidal_track m; status := status m;
     is_paused_waiting := is_paused_waiting m;
     current_image_url := current_image_url m; mute_spotify := mute_spotify m;
     auto_favorite := v;
     current_song_favorited := current_song_favorited m;
     waiting_for_user_selection := waiting_for_user_selection m |}.

Definition set_checks_made (v : nat) (w : World) : World :=
  {| sp_playback := sp_playback w; sp_rejects := sp_rejects w;
     check_login := check_login w; checks_made := v;
     tidal_track := tidal_track w; tidal_search := tidal_search w;
     config_quality := config_quality w; get_url := get_url w;
     add_favorite := add_favorite w; vlc := vlc w; vlc_play := vlc_play w;
     mappings := mappings w; mappings_writable := mappings_writable w |}.

Definition set_config_quality (v : quality) (w : World) : World :=
  {| sp_playback := sp_playback w; sp_rejects := sp_rejects w;
     check_login := check_login w; checks_made := checks_made w;
     tidal_track := tidal_track w; tidal_search := tidal_search w;
     config_quality := v; get_url := get_url w;
     add_favorite := add_favorite w; vlc := vlc w; vlc_play := vlc_play w;
     mappings := mappings w; mappings_writable := mappings_writable w |}.

Definition set_vlc (v : Player) (w : World) : World :=
  {| sp_playback := sp_playback w; sp_rejects := sp_rejects w;
     check_login := check_login w; checks_made := checks_made w;
     tidal_track := tidal_track w; tidal_search := tidal_search w;
     config_quality := config_quality w; get_url := get_url w;
     add_favorite := add_favorite w; vlc := v; vlc_play := vlc_play w;
     mappings := mappings w; mappings_writable := mappings_writable w |}.

Definition set_mappings (v : gmap string Z) (w : World) : World :=
  {| sp_playback := sp_playback w; sp_rejects := sp_rejects w;
     check_login := check_login w; checks_made := checks_made w;
     tidal_track := tidal_track w; tidal_search := tidal_search w;
     config_quality := config_quality w; get_url := get_url w;
     add_favorite := add_favorite w; vlc := vlc w; vlc_play := vlc_play w;
     mappings := v; mappings_writable := mappings_writable w |}.

Definition set_playing (v : bool) (p : Player) : Player :=
  {| playing := v; time := time p; duration := duration p |}.

(** ** The monad of Python code

    A computation of type [M R A] runs inside a function whose return
    type is [R]: it ends normally with a value of type [A], leaves the
    function by [return] with a value of type [R], or raises.  State
    changes made before an exception stay, as in Python. *)

Inductive outcome (R A : Type) : Type :=
| Ok (a : A)
| Ret (r : R)
| Raise (e : exn).
Arguments Ok {R A} a.
Arguments Ret {R A} r.
Arguments Raise {R A} e.

Record run (R A : Type) : Type :=
  Run { out : outcome R A; post : state; log : list call }.
Arguments Run {R A} out post log.
Arguments out {R A} r.
Arguments post {R A} r.
Arguments log {R A} r.

Definition M (R A : Type) : Type := state -> run R A.

Definition ret {R A} (a : A) : M R A := fun s => Run (Ok a) s [].

Definition bind {R A B} (m : M R A) (f : A -> M R B) : M R B :=
  fun s =>
    match m s with
    | Run (Ok a) s1 l1 =>
        match f a s1 with
        | Run o s2 l2 => Run o s2 (l1 ++ l2)
        end
    | Run (Ret v) s1 l1 => Run (Ret v) s1 l1
    | Run (Raise e) s1 l1 => Run (Raise e) s1 l1
    end.

Declare Scope py_scope.
Delimit Scope py_scope with py.
Notation "x <- m ;; k" := (bind m (fun x => k))
  (at level 100, m at next level, right associativity) : py_scope.
Notation "m ;; k" := (bind m (fun _ => k))
  (at level 100, right associativity) : py_scope.
Local Open Scope py_scope.

(** [return v] *)
Definition return_ {R A} (v : R) : M R A := fun s => Run (Ret v) s [].

(** [raise e] *)
Definition raise {R A} (e : exn) : M R A := fun s => Run (Raise e) s [].

(** [try: body  except: handler] *)
Definition try_except {R A} (body : M R A) (handler : exn -> M R A) : M R A :=
  fun s =>
    match body s with
    | Run (Raise e) s1 l1 =>
        match handler e s1 with
        | Run o s2 l2 => Run o s2 (l1 ++ l2)
        end
    | finished => finished
    end.

(** A call of a function with body [body]: the body's [return v], or its
    falling off the end, is the value of the call. *)
Definition def {R R'} (body : M R R) : M R' R :=
  fun s =>
    match body s with
    | Run (Ok v) s1 l1 => Run (Ok v) s1 l1
    | Run (Ret v) s1 l1 => Run (Ok v) s1 l1
    | Run (Raise e) s1 l1 => Run (Raise e) s1 l1
    end.

Definition get_self {R} : M R SyncManager := fun s => Run (Ok (self s)) s [].
Definition get_world {R} : M R World := fun s => Run (Ok (world s)) s [].

Definition assign {R} (f : SyncManager -> SyncManager) : M R unit :=
  fun s => Run (Ok tt) (State (f (self s)) (world s)) [].

Definition affect {R} (f : World -> World) : M R unit :=
  fun s => Run (Ok tt) (State (self s) (f (world s))) [].

(** One entry in the log of calls. *)
Definition emit {R} (c : call) : M R unit := fun s => Run (Ok tt) s [c].

Definition answer {R A} (r : reply A) : M R A :=
  match r with
  | Reply a => ret a
  | Failure e => raise e
  end.

(** ** Calls to the collaborators *)

(** A method call on [self.sp]: an [AttributeError] while [self.sp] is
    [None], otherwise the request goes out and the Web API accepts or
    rejects it. *)
Definition sp_request {R} (c : call) : M R unit :=
  me <- get_self ;;
  match sp me with
  | None => raise AttributeError
  | Some _ =>
      emit c ;;
      w <- get_world ;;
      if sp_rejects w c then raise SpotifyException else ret tt
  end.

(** [self.sp.current_playback()] *)
Definition sp_current_playback {R} : M R (option Playback) :=
  me <- get_self ;;
  match sp me with
  | None => raise AttributeError
  | Some _ =>
      emit SpCurrentPlayback ;;
      w <- get_world ;;
      answer (sp_playback w)
  end.

(** [self.tidal.check_login()] *)
Definition tidal_check_login {R} : M R bool :=
  emit TidalCheckLogin ;;
  w <- get_world ;;
  affect (set_checks_made (S (checks_made w))) ;;
  answer (check_login w (checks_made w)).

(** [self.tidal.track(tidal_id)] *)
Definition tidal_track_by_id {R} (tidal_id : Z) : M R TidalTrack :=
  emit (TidalTrackById tidal_id) ;;
  w <- get_world ;;
  answer (tidal_track w tidal_id).

(** [self.tidal.search(query, models=[tidalapi.media.Track], limit=n)['tracks']] *)
Definition tidal_search_tracks {R} (query : string) (limit : Z)
  : M R (list TidalTrack) :=
  emit (TidalSearch query limit) ;;
  w <- get_world ;;
  answer (tidal_search w query limit).

(** [tidal_track.get_url()], under the quality the session is set to. *)
Definition track_get_url {R} (t : TidalTrack) : M R (option string) :=
  w <- get_world ;;
  emit (TidalGetUrl (config_quality w) (t_id t)) ;;
  answer (get_url w (config_quality w) t).

(** [self.tidal.add_favorite(id)] *)
Definition tidal_add_favorite {R} (id : Z) : M R unit :=
  emit (TidalAddFavorite id) ;;
  w <- get_world ;;
  answer (add_favorite w id).

(** [AudioPlayer]: [play_url] can fail while the media is created; the
    transport calls [pause], [resume] and [stop] act on the player at
    once. *)
Definition player_play_url {R} (url : string) : M R unit :=
  emit (VlcPlayUrl url) ;;
  w <- get_world ;;
  p <- answer (vlc_play w url) ;;
  affect (set_vlc p).

Definition player_pause {R} : M R unit :=
  emit VlcPause ;;
  w <- get_world ;;
  affect (set_vlc (set_playing false (vlc w))).

Definition player_resume {R} : M R unit :=
  emit VlcResume ;;
  w <- get_world ;;
  affect (set_vlc (set_playing true (vlc w))).

Definition player_stop {R} : M R unit :=
  emit VlcStop ;;
  w <- get_world ;;
  affect (set_vlc (set_playing false (vlc w))).

Definition player_is_playing {R} : M R bool :=
  w <- get_world ;; ret (playing (vlc w)).
Definition player_get_time {R} : M R Z :=
  w <- get_world ;; ret (time (vlc w)).
Definition player_get_duration {R} : M R Z :=
  w <- get_world ;; ret (duration (vlc w)).

(** A callback held in a field: called only when one is registered. *)
Definition invoke {R} (cb : callback) (c : call) : M R unit :=
  emit c ;;
  match cb with
  | Callback true => raise CallbackException
  | Callback false => ret tt
  end.

(** [load_mappings()] and [save_mapping(sp_id, tidal_id)]: [save_json]
    swallows a failed write. *)
Definition load_mappings {R} : M R (gmap string Z) :=
  w <- get_world ;; ret (mappings w).

Definition save_mapping {R} (id : string) (tidal_id : Z) : M R unit :=
  data <- load_mappings ;;
  emit (SaveMapping id tidal_id) ;;
  w <- get_world ;;
  if mappings_writable w
  then affect (set_mappings (<[id := tidal_id]> data))
  else ret tt.

(** ** String helpers *)

(** [s.split(c)[0]]: the part of [s] before the first [c]. *)
Fixpoint split_first (c : ascii) (s : string) : string :=
  match s with
  | EmptyString => EmptyString
  | String a rest =>
      if Ascii.eqb a c then EmptyString else String a (split_first c rest)
  end.

(** The characters [str.strip()] removes, among code points below 256. *)
Definition is_space (a : ascii) : bool :=
  existsb (Nat.eqb (nat_of_ascii a))
    [9; 10; 11; 12; 13; 28; 29; 30; 31; 32; 133; 160]%nat.

Fixpoint lstrip (s : string) : string :=
  match s with
  | EmptyString => EmptyString
  | String a rest => if is_space a then lstrip rest else s
  end.

Fixpoint rstrip (s : string) : string :=
  match s with
  | EmptyString => EmptyString
  | String a rest =>
      match rstrip rest with
      | EmptyString => if is_space a then EmptyString else String a EmptyString
      | kept => String a kept
      end
  end.

Definition strip (s : string) : string := rstrip (lstrip s).

(** [s.split(c)[-1]]: the part of [s] after the last [c]. *)
Fixpoint occurs (c : ascii) (s : string) : bool :=
  match s with
  | EmptyString => false
  | String a rest => Ascii.eqb a c || occurs c rest
  end.

Fixpoint split_last (c : ascii) (s : string) : string :=
  match s with
  | EmptyString => EmptyString
  | String a rest =>
      if Ascii.eqb a c || occurs c rest then split_last c rest else s
  end.

(** [str.upper()] on the ASCII letters of a quality name. *)
Definition upper_char (a : ascii) : ascii :=
  let n := nat_of_ascii a in
  if (97 <=? n)%nat && (n <=? 122)%nat then ascii_of_nat (n - 32) else a.

Fixpoint upper (s : string) : string :=
  match s with
  | EmptyString => EmptyString
  | String a rest => String (upper_char a) (upper rest)
  end.

(** Python truth of a value that is a string or [None]. *)
Definition truthy (u : option string) : bool :=
  match u with
  | Some s => negb (String.eqb s "")
  | None => false
  end.

(** ** Credentials: [migrate_credentials_to_keyring], [get_credentials]

    The OS keyring holds the entries of the service "SpotifyTidalSync";
    the environment holds what [load_dotenv] and the process provide.
    A keyring backend can fail on a read, and refuse the write of a
    key. *)

Record Keyring : Type := {
  entries : gmap string string;
  unreadable : bool;
  refuses : string -> bool
}.

(** The result of code that reads the keyring outside any [try]. *)
Inductive keyring_result (A : Type) : Type :=
| Got (a : A)
| KeyringError.
Arguments Got {A} a.
Arguments KeyringError {A}.

(** [keyring.get_password(KEYRING_SERVICE, key)] *)
Definition get_password (k : Keyring) (key : string)
  : keyring_result (option string) :=
  if unreadable k then KeyringError else Got (entries k !! key).

(** [keyring.set_password(KEYRING_SERVICE, key, value)]: [None] when
    the backend raises. *)
Definition set_password (k : Keyring) (key value : string) : option Keyring :=
  if refuses k key then None
  else Some {| entries := <[key := value]> (entries k);
               unreadable := unreadable k; refuses := refuses k |}.

Definition placeholder_id : string := "your_pasted_client_id_here".

(** [migrate_credentials_to_keyring] (lines 92-105): the keyring it
    leaves. *)
Definition migrate_credentials_to_keyring (env : gmap string string)
    (k : Keyring) : keyring_result Keyring :=
  let env_id := env !! "SPOTIFY_CLIENT_ID" in
  let env_secret := env !! "SPOTIFY_CLIENT_SECRET" in
  match env_id, env_secret with
  | Some id, Some secret =>
      if truthy env_id && truthy env_secret
         && negb (String.eqb id placeholder_id) then
        match get_password k "SPOTIFY_CLIENT_ID" with
        | KeyringError => KeyringError
        | Got stored =>
            if negb (truthy stored) then
              match set_password k "SPOTIFY_CLIENT_ID" id with
              | None => Got k
              | Some k1 =>
                  match set_password k1 "SPOTIFY_CLIENT_SECRET" secret with
                  | None => Got k1
                  | Some k2 => Got k2
                  end
              end
            else Got k
        end
      else Got k
  | _, _ => Got k
  end.

(** [get_credentials] (lines 107-116) *)
Definition get_credentials (env : gmap string string) (k : Keyring)
  : keyring_result (option string * option string) :=
  match get_password k "SPOTIFY_CLIENT_ID" with
  | KeyringError => KeyringError
  | Got client_id =>
      match get_password k "SPOTIFY_CLIENT_SECRET" with
      | KeyringError => KeyringError
      | Got client_secret =>
          if negb (truthy client_id) || negb (truthy client_secret) then
            Got (env !! "SPOTIFY_CLIENT_ID", env !! "SPOTIFY_CLIENT_SECRET")
          else Got (client_id, client_secret)
      end
  end.

(** ** Settings: [load_settings], [save_setting]

    The settings file as [load_json] reads it (an empty dictionary when
    the file is missing or unreadable); [save_json] swallows a failed
    write. *)







(** ** Track matching: [search_tidal_match] *)

(** [get_tidal_track_by_id] *)
Definition get_tidal_track_by_id {R} (tidal_id : Z) : M R (option TidalTrack) :=
  def (try_except
         (t <- tidal_track_by_id tidal_id ;; return_ (Some t))
         (fun _ => return_ None)).

(** [# 1. Check Mappings] *)
Definition check_mappings (sp_track : SpTrack) : M (option TidalTrack) unit :=
  mappings <- load_mappings ;;
  match mappings !! sp_id sp_track with
  | Some tidal_id =>
      t_track <- get_tidal_track_by_id tidal_id ;;
      match t_track with
      | Some t => return_ (Some t)
      | None => ret tt
      end
  | None => ret tt
  end.

(** [abs((t.duration * 1000) - duration_ms) <= 5000] *)
Definition duration_matches (duration_ms : Z) (t : TidalTrack) : bool :=
  Z.abs (t_duration t * 1000 - duration_ms) <=? 5000.

(** The [for t in search['tracks']] loop with its [break]. *)
Fixpoint scan_tracks (duration_ms : Z) (tracks : list TidalTrack)
    (best_match : option TidalTrack) : option TidalTrack :=
  match tracks with
  | [] => best_match
  | t :: rest =>
      if duration_matches duration_ms t then Some t
      else scan_tracks duration_ms rest best_match
  end.

(** The query string of the search. *)
Definition search_query (track_name artist_name : string) : string :=
  let clean_name := strip (split_first "-" (split_first "(" track_name)) in
  clean_name +:+ " " +:+ artist_name.

(** [# 2. Search] *)
Definition search_catalog (sp_track : SpTrack)
  : M (option TidalTrack) (option TidalTrack) :=
  let track_name := sp_name sp_track in
  artist_name <- match sp_artists sp_track with
                 | a :: _ => ret a
                 | [] => raise IndexError
                 end ;;
  let duration_ms := sp_duration_ms sp_track in
  try_except
    (let query := search_query track_name artist_name in
     tracks <- tidal_search_tracks query 10 ;;
     let best_match := scan_tracks duration_ms tracks None in
     match best_match with
     | Some t => return_ (Some t)
     | None => return_ None
     end)
    (fun _ => ret tt) ;;
  return_ None.

Definition search_tidal_match {R} (sp_track : SpTrack)
  : M R (option TidalTrack) :=
  def (check_mappings sp_track ;; search_catalog sp_track).

(** ** Session check: [check_and_refresh_session] *)

Definition check_and_refresh_session {R} : M R bool :=
  def (valid <- tidal_check_login ;;
       (if negb valid then
          valid_again <- tidal_check_login ;;
          if negb valid_again then return_ false else ret tt
        else ret tt) ;;
       return_ true).

(** ** The engine, over the quality names of the installed [tidalapi] *)

Section Engine.

(** The attribute names of [tidalapi.Quality]: fixed by the installed
    library, probed with [hasattr]. *)
Variable Quality_attrs : list string.

(** [str()] of the member of [tidalapi.Quality] that an attribute
    names, fixed by the installed library too: ["Quality.high_lossless"]
    where [Quality] is a plain [Enum], the value of the member (as
    ["LOSSLESS"] for [high_lossless]) where the library defines
    [__str__]. *)
Variable Quality_str : string -> string.

Definition hasattr (attr : string) : bool :=
  existsb (String.eqb attr) Quality_attrs.

(** [get_tidal_quality], evaluated once when the module is loaded. *)
Fixpoint first_attr (options : list string) : quality :=
  match options with
  | [] => None
  | opt :: rest => if hasattr opt then Some opt else first_attr rest
  end.

Definition get_tidal_quality : quality :=
  first_attr
    ["hi_res_lossless"; "high_lossless"; "lossless"; "LOSSLESS"; "high"; "HIGH"].

Definition PREFERRED_QUALITY : quality := get_tidal_quality.

(** ** Playback: [attempt_play_tidal] *)

Definition possible_attrs : list string :=
  ["hi_res_lossless"; "high_lossless"; "lossless"; "high"; "low"].

(** The list built at lines 411-420. *)
Definition qualities_to_try : list quality :=
  let found := map Some (List.filter hasattr possible_attrs) in
  match found with
  | [] => [PREFERRED_QUALITY]
  | _ => found
  end.

(** [str(quality).split(".")[-1].upper()]; [str(None)] is ["None"]. *)
Definition quality_label (q : quality) : string :=
  match q with
  | Some attr => upper (split_last "." (Quality_str attr))
  | None => upper (split_last "." "None")
  end.

(** The [for quality in qualities_to_try] loop; [url] and [used_quality]
    are its two local variables. *)
Fixpoint try_qualities {R} (tidal_track : TidalTrack) (qualities : list quality)
    (url : option string) (used_quality : string)
  : M R (option string * string) :=
  match qualities with
  | [] => ret (url, used_quality)
  | q :: rest =>
      fetched <- try_except
                   (affect (set_config_quality q) ;;
                    u <- track_get_url tidal_track ;;
                    ret (Some u))
                   (fun _ => ret None) ;;
      match fetched with
      | Some u =>
          if truthy u then ret (u, quality_label q)
          else try_qualities tidal_track rest u used_quality
      | None => try_qualities tidal_track rest url used_quality
      end
  end.

Definition attempt_play_tidal {R} (tidal_track : TidalTrack)
    (sp_is_playing : bool) : M R bool :=
  def (valid <- check_and_refresh_session ;;
       (if negb valid then
          assign (set_status "Session Expired") ;; return_ false
        else ret tt) ;;
       found <- try_qualities tidal_track qualities_to_try None "Unknown" ;;
       let url := fst found in
       let used_quality := snd found in
       (if negb (truthy url) then player_stop ;; return_ false else ret tt) ;;
       try_except
         (player_play_url (default "" url) ;;
          (if negb sp_is_playing then
             sp_request SpStartPlayback ;; sp_request (SpSeekTrack 0)
           else sp_request (SpSeekTrack 0)) ;;
          assign (set_status
                    ("Playing: " +:+ t_name tidal_track +:+ " [" +:+
                     used_quality +:+ "]")) ;;
          return_ true)
         (fun _ => player_stop ;; return_ false)).

(** ** Shutdown *)

Definition shutdown {R} : M R unit :=
  def (assign (set_running false) ;;
       try_except
         (me <- get_self ;;
          match sp me with
          | Some _ => sp_request SpPausePlayback
          | None => ret tt
          end)
         (fun _ => ret tt) ;;
       try_except player_stop (fun _ => ret tt)).

(** ** One tick: [sync_logic] *)

(** [# Mute Spotify Logic] *)
Definition mute_spotify_logic (sp_playback : Playback) : M unit unit :=
  me <- get_self ;;
  if mute_spotify me then
    try_except
      (match volume_percent sp_playback with
       | Some 0 => ret tt
       | _ => sp_request (SpVolume 0)
       end)
      (fun _ => ret tt)
  else ret tt.

(** [# Get Art]: the first image, [None] when there is none. *)
Definition get_art (sp_track : SpTrack) : M unit unit :=
  assign (set_current_image_url (head (sp_images sp_track))).

(** [self.current_spotify_track is None or sp_id != self.current_spotify_track['id']] *)
Definition track_changed (me : SyncManager) (sp_track : SpTrack) : bool :=
  match current_spotify_track me with
  | None => true
  | Some current => negb (String.eqb (sp_id sp_track) (sp_id current))
  end.

(** [# --- Track Change ---] *)
Definition track_change (sp_track : SpTrack) (sp_is_playing : bool)
  : M unit unit :=
  me <- get_self ;;
  if track_changed me sp_track then
    total <- player_get_duration ;;
    elapsed <- player_get_time ;;
    let vlc_left := total - elapsed in
    busy <- player_is_playing ;;
    (if busy && (0 <? vlc_left) && (vlc_left <? 5000)
     then return_ tt else ret tt) ;;
    assign (set_current_spotify_track (Some sp_track)) ;;
    assign (set_waiting_for_user_selection false) ;;
    assign (set_current_song_favorited false) ;;
    tidal_track <- search_tidal_match sp_track ;;
    match tidal_track with
    | Some t =>
        assign (set_current_tidal_track (Some t)) ;;
        assign (set_status ("Loading: " +:+ t_name t +:+ "...")) ;;
        played <- attempt_play_tidal t sp_is_playing ;;
        if negb played then assign (set_status "Playback Error - Stopped")
        else ret tt
    | None =>
        assign (set_status "Match Not Found - Waiting for User") ;;
        player_stop ;;
        assign (set_current_tidal_track None) ;;
        assign (set_waiting_for_user_selection true) ;;
        me' <- get_self ;;
        match request_manual_match me' with
        | Some cb => invoke cb (RequestManualMatch (sp_id sp_track))
        | None => ret tt
        end
    end
  else ret tt.

(** [# Simple Pause/Resume Sync] *)
Definition pause_resume_sync (sp_is_playing : bool) : M unit unit :=
  me <- get_self ;;
  busy <- player_is_playing ;;
  if negb sp_is_playing && busy then player_pause
  else if sp_is_playing && negb busy && negb (is_paused_waiting me) then
    elapsed <- player_get_time ;;
    total <- player_get_duration ;;
    if elapsed <? total - 500 then player_resume else ret tt
  else ret tt.

(** [(get_time() / get_duration()) >= 0.90] for a non-zero duration.
    Both times are integers and [/] is Python's true division: the
    quotient rounded to the nearest double, ties to the even one.  The
    literal [0.90] is the double 8106479329266893 / 2^53 and the double
    below it is 8106479329266892 / 2^53, so the rounded quotient is at
    least [0.90] exactly when the quotient is above their midpoint
    [below_090], 16212958658533785 / 2^54 (the midpoint itself is
    rounded to the even neighbour, the lower one). *)
Definition below_090 : Q := (16212958658533785 # 18014398509481984)%Q.

Definition ratio_reached (elapsed total : Z) : bool :=
  if 0 <? total
  then Qnum below_090 * total <? Z.pos (Qden below_090) * elapsed
  else Z.pos (Qden below_090) * elapsed <? Qnum below_090 * total.
Arguments ratio_reached : simpl never.

(** [# Auto Favorite] *)
Definition auto_favorite_check : M unit unit :=
  me <- get_self ;;
  busy <- player_is_playing ;;
  if auto_favorite me && negb (current_song_favorited me) && busy then
    elapsed <- player_get_time ;;
    total <- player_get_duration ;;
    reached <- (if total =? 0 then raise ZeroDivisionError
                else ret (ratio_reached elapsed total)) ;;
    if reached then
      try_except
        (match current_tidal_track me with
         | Some t => tidal_add_favorite (t_id t)
         | None => raise AttributeError
         end ;;
         assign (set_current_song_favorited true))
        (fun _ => ret tt)
    else ret tt
  else ret tt.

(** [# End of Track Handling] *)
Definition end_of_track_handling (sp_track : SpTrack) (sp_playback : Playback)
  : M unit unit :=
  total <- player_get_duration ;;
  elapsed <- player_get_time ;;
  let time_left_tidal := total - elapsed in
  let time_left_sp := sp_duration_ms sp_track - progress_ms sp_playback in
  me <- get_self ;;
  (if (time_left_sp <? 3000) && (time_left_tidal >? 5000)
      && negb (is_paused_waiting me)
   then sp_request SpPausePlayback ;; assign (set_is_paused_waiting true)
   else ret tt) ;;
  me' <- get_self ;;
  busy <- player_is_playing ;;
  if is_paused_waiting me' && ((time_left_tidal <? 1000) || negb busy)
  then sp_request SpNextTrack ;; assign (set_is_paused_waiting false)
  else ret tt.

(** [# --- Playback Monitor ---] *)
Definition playback_monitor (sp_track : SpTrack) (sp_playback : Playback)
  : M unit unit :=
  me <- get_self ;;
  match current_tidal_track me with
  | Some _ =>
      if negb (waiting_for_user_selection me) then
        pause_resume_sync (is_playing sp_playback) ;;
        auto_favorite_check ;;
        end_of_track_handling sp_track sp_playback
      else ret tt
  | None => ret tt
  end.

(** Lines 476-522: the snapshot, the mute, the art and the track change.
    It hands the snapshot and its item to the monitor, or returns from
    the tick. *)
Definition sync_logic_head : M unit (SpTrack * Playback) :=
  sp_playback <- try_except sp_current_playback
                   (fun _ => assign (set_status "Spotify Error") ;;
                             return_ tt) ;;
  found <- match sp_playback with
           | Some snapshot =>
               match item snapshot with
               | Some sp_track => ret (sp_track, snapshot)
               | None => assign (set_status "Spotify Idle") ;; return_ tt
               end
           | None => assign (set_status "Spotify Idle") ;; return_ tt
           end ;;
  let sp_track := fst found in
  let snapshot := snd found in
  mute_spotify_logic snapshot ;;
  get_art sp_track ;;
  track_change sp_track (is_playing snapshot) ;;
  ret found.

Definition sync_logic {R} : M R unit :=
  def (found <- sync_logic_head ;;
       playback_monitor (fst found) (snd found)).

(** ** The status projection and the control loop *)

Definition get_debug_info {R} : M R DebugInfo :=
  me <- get_self ;;
  elapsed <- player_get_time ;;
  let name := match current_tidal_track me with
              | Some t => t_name t
              | None => "None"
              end in
  let name := if waiting_for_user_selection me then "(Selection Needed)"
              else name in
  ret {| info_status := status me; info_tidal_track := name;
         info_vlc_time := elapsed; info_image_url := current_image_url me |}.

(** The body of [while self.running]: one period of the loop. *)
Definition loop_body {R} : M R unit :=
  try_except
    (sync_logic ;;
     me <- get_self ;;
     match gui_callback me with
     | Some cb => info <- get_debug_info ;; invoke cb (GuiCallback info)
     | None => ret tt
     end)
    (fun _ => ret tt).

(** ** Manual override: [manual_map_track] *)

Definition manual_map_track {R} (tidal_track : TidalTrack) : M R unit :=
  def (me <- get_self ;;
       match current_spotify_track me with
       | Some current =>
           save_mapping (sp_id current) (t_id tidal_track) ;;
           assign (set_current_tidal_track (Some tidal_track)) ;;
           assign (set_waiting_for_user_selection false) ;;
           assign (set_status ("Mapped: " +:+ t_name tidal_track)) ;;
           sp_playing <- try_except
                           (snapshot <- sp_current_playback ;;
                            match snapshot with
                            | Some p => ret (is_playing p)
                            | None => raise TypeError
                            end)
                           (fun _ => ret true) ;;
           played <- attempt_play_tidal tidal_track sp_playing ;;
           if negb played then emit ShowError else ret tt
       | None => ret tt
       end).

(** ** Transport buttons and settings of the window *)

Definition toggle_play {R} : M R unit :=
  def (try_except
         (snapshot <- sp_current_playback ;;
          match snapshot with
          | Some p => if is_playing p then sp_request SpPausePlayback
                      else sp_request SpStartPlayback
          | None => raise TypeError
          end)
         (fun _ => ret tt)).

Definition next_track {R} : M R unit :=
  def (try_except (sp_request SpNextTrack) (fun _ => ret tt)).



(** ** The control loop

    The loop thread runs one [loop_body] per period; the window thread
    acts on the manager in between.  A schedule lists, period by period,
    the collaborators as the tick finds them and what the window does
    during the sleep that follows. *)

Inductive window_action : Type :=
| NoAction
| CloseWindow
| SelectTrack (tidal_track : TidalTrack)
| SaveSettings (mute favorite : bool)
| PressPlay
| PressNext.

Definition window {R} (a : window_action) : M R unit :=
  match a with
  | NoAction => ret tt
  | CloseWindow => shutdown
  | SelectTrack t => manual_map_track t
  | SaveSettings mute favorite =>
      assign (set_mute_spotify mute) ;; assign (set_auto_favorite favorite)
  | PressPlay => toggle_play
  | PressNext => next_track
  end.

Record period : Type := Period { found_world : World; action : window_action }.

(** [while self.running: ...] over a schedule: the manager when the
    schedule is used up or the loop has left, and every tick that ran,
    as the state it started from and its run. *)
Fixpoint while_running (me : SyncManager) (schedule : list period)
  : SyncManager * list (state * run unit unit) :=
  match schedule with
  | [] => (me, [])
  | p :: rest =>
      if running me then
        let s := State me (found_world p) in
        let tick := loop_body (R := unit) s in
        let after := window (R := unit) (action p) (post tick) in
        let later := while_running (self (post after)) rest in
        (fst later, (s, tick) :: snd later)
      else (me, [])
  end.

Section ControlLoop.

(** [login] (lines 264-352), the credential and session bootstrap, is
    left to the environment. *)
Variable login : M bool bool.

(** [control_loop]: no tick unless the login succeeded. *)
Definition control_loop (s : state) (schedule : list period)
  : SyncManager * list (state * run unit unit) :=
  match def (R' := unit) login s with
  | Run (Ok true) s1 _ =>
      while_running (set_status "Running" (self s1)) schedule
  | Run _ s1 _ => (self s1, [])
  end.

End ControlLoop.

(** ** Sample data for the closed examples *)

Definition track_a : SpTrack :=
  {| sp_id := "spA"; sp_name := "Alpha (Remastered)"; sp_artists := ["Ann"];
     sp_duration_ms := 200000; sp_images := ["art-a"] |}.

Definition track_b : SpTrack :=
  {| sp_id := "spB"; sp_name := "Beta"; sp_artists := ["Bob"];
     sp_duration_ms := 180000; sp_images := [] |}.

Definition tidal_far : TidalTrack :=
  {| t_id := 1; t_name := "Alpha (Live)"; t_duration := 150 |}.
Definition tidal_near : TidalTrack :=
  {| t_id := 2; t_name := "Alpha"; t_duration := 198 |}.
Definition tidal_exact : TidalTrack :=
  {| t_id := 3; t_name := "Alpha"; t_duration := 200 |}.

Definition snapshot_of (t : SpTrack) (live : bool) (progress : Z) : Playback :=
  {| item := Some t; is_playing := live; progress_ms := progress;
     volume_percent := Some 0 |}.

Definition player_at (live : bool) (elapsed total : Z) : Player :=
  {| playing := live; time := elapsed; duration := total |}.

(** A world in which every collaborator answers: Spotify reports
    [snapshot], the session is valid, the catalogue search returns
    [found], every quality resolves to the URL ["stream"], and the
    player is [p]. *)
Definition calm_world (snapshot : option Playback) (found : list TidalTrack)
    (p : Player) : World :=
  {| sp_playback := Reply snapshot;
     sp_rejects := fun _ => false;
     check_login := fun _ => Reply true;
     checks_made := 0;
     tidal_track := fun _ => Failure TidalException;
     tidal_search := fun _ _ => Reply found;
     config_quality := None;
     get_url := fun _ _ => Reply (Some "stream");
     add_favorite := fun _ => Reply tt;
     vlc := p;
     vlc_play := fun _ => Reply (player_at true 0 0);
     mappings := ∅;
     mappings_writable := true |}.

(** The same, with a session that stays invalid. *)
Definition expired_world (snapshot : option Playback)
    (found : list TidalTrack) (p : Player) : World :=
  {| sp_playback := Reply snapshot;
     sp_rejects := fun _ => false;
     check_login := fun _ => Reply false;
     checks_made := 0;
     tidal_track := fun _ => Failure TidalException;
     tidal_search := fun _ _ => Reply found;
     config_quality := None;
     get_url := fun _ _ => Reply (Some "stream");
     add_favorite := fun _ => Reply tt;
     vlc := p;
     vlc_play := fun _ => Reply (player_at true 0 0);
     mappings := ∅;
     mappings_writable := true |}.

(** A world in which every network call fails. *)
Definition stormy_world (p : Player) : World :=
  {| sp_playback := Failure SpotifyException;
     sp_rejects := fun _ => true;
     check_login := fun _ => Failure TidalException;
     checks_made := 0;
     tidal_track := fun _ => Failure TidalException;
     tidal_search := fun _ _ => Failure TidalException;
     config_quality := None;
     get_url := fun _ _ => Failure TidalException;
     add_favorite := fun _ => Failure TidalException;
     vlc := p;
     vlc_play := fun _ => Failure VlcException;
     mappings := ∅;
     mappings_writable := false |}.

(** A calm world whose mapping store sends [source] to the target id
    [target_id], fetched as [answer]. *)
Definition mapped_world (source : string) (target_id : Z)
    (answer : reply TidalTrack) (found : list TidalTrack) : World :=
  {| sp_playback := Reply None;
     sp_rejects := fun _ => false;
     check_login := fun _ => Reply true;
     checks_made := 0;
     tidal_track := fun _ => answer;
     tidal_search := fun _ _ => Reply found;
     config_quality := None;
     get_url := fun _ _ => Reply (Some "stream");
     add_favorite := fun _ => Reply tt;
     vlc := player_at false 0 0;
     vlc_play := fun _ => Reply (player_at true 0 0);
     mappings := {[ source := target_id ]};
     mappings_writable := true |}.

(** A calm world whose favorite service refuses every call. *)
Definition refusing_world (snapshot : option Playback) (p : Player) : World :=
  {| sp_playback := Reply snapshot;
     sp_rejects := fun _ => false;
     check_login := fun _ => Reply true;
     checks_made := 0;
     tidal_track := fun _ => Failure TidalException;
     tidal_search := fun _ _ => Reply [];
     config_quality := None;
     get_url := fun _ _ => Reply (Some "stream");
     add_favorite := fun _ => Failure TidalException;
     vlc := p;
     vlc_play := fun _ => Reply (player_at true 0 0);
     mappings := ∅;
     mappings_writable := true |}.

(** A calm world in which only the quality [good] resolves. *)
Definition picky_world (good : quality) : World :=
  {| sp_playback := Reply None;
     sp_rejects := fun _ => false;
     check_login := fun _ => Reply true;
     checks_made := 0;
     tidal_track := fun _ => Failure TidalException;
     tidal_search := fun _ _ => Reply [];
     config_quality := None;
     get_url := fun q _ =>
       match q, good with
       | Some a, Some b => if String.eqb a b then Reply (Some "stream")
                           else Failure TidalException
       | _, _ => Failure TidalException
       end;
     add_favorite := fun _ => Reply tt;
     vlc := player_at false 0 0;
     vlc_play := fun _ => Reply (player_at true 0 0);
     mappings := ∅;
     mappings_writable := true |}.

(** The manager as [__init__] leaves it, and after a login. *)
Definition fresh_manager : SyncManager :=
  {| sp := None; gui_callback := None; request_manual_match := None;
     running := true; current_spotify_track := None;
     current_tidal_track := None; status := "Initializing...";
     is_paused_waiting := false; current_image_url := None;
     mute_spotify := true; auto_favorite := false;
     current_song_favorited := false; waiting_for_user_selection := false |}.

Definition logged_in_manager : SyncManager := set_sp (Some tt) fresh_manager.

(** A manager in the middle of [source] with [target] playing. *)
Definition playing_manager (source : SpTrack) (target : TidalTrack)
  : SyncManager :=
  set_current_tidal_track (Some target)
    (set_current_spotify_track (Some source) logged_in_manager).

(** The quality names of a [tidalapi] 0.7 installation. *)
Definition tidalapi_names : list string :=
  ["low_96k"; "low_320k"; "high_lossless"; "hi_res"; "hi_res_lossless"].

(** [str()] of its members: the library defines [__str__] as the value
    of the member. *)
Definition tidalapi_str (attr : string) : string :=
  if String.eqb attr "low_96k" then "LOW"
  else if String.eqb attr "low_320k" then "HIGH"
  else if String.eqb attr "high_lossless" then "LOSSLESS"
  else if String.eqb attr "hi_res" then "HI_RES"
  else if String.eqb attr "hi_res_lossless" then "HI_RES_LOSSLESS"
  else "Quality." +:+ attr.

(** Credentials: a [.env] holding both values, a keyring holding both,
    and an empty keyring that refuses the writes [refused] names. *)
Definition dotenv : gmap string string :=
  {[ "SPOTIFY_CLIENT_ID" := "id-env"; "SPOTIFY_CLIENT_SECRET" := "secret-env" ]}.

Definition stored_keyring : Keyring :=
  {| entries := {[ "SPOTIFY_CLIENT_ID" := "id-ring";
                   "SPOTIFY_CLIENT_SECRET" := "secret-ring" ]};
     unreadable := false;
     refuses := fun _ => false |}.

Definition empty_keyring (refused : string -> bool) : Keyring :=
  {| entries := ∅; unreadable := false; refuses := refused |}.


(** A manager in the middle of [source] with [target] playing, with
    auto-favorite enabled and a status callback registered. *)
Definition watched_manager (source : SpTrack) (target : TidalTrack)
  : SyncManager :=
  {| sp := Some tt; gui_callback := Some (Callback false);
     request_manual_match := None; running := true;
     current_spotify_track := Some source;
     current_tidal_track := Some target; status := "Running";
     is_paused_waiting := false; current_image_url := None;
     mute_spotify := true; auto_favorite := true;
     current_song_favorited := false; waiting_for_user_selection := false |}.


(** ** Vocabulary of the statements *)

(** Every persisted mapping of the track is stale: fetching the mapped
    target fails. *)
Definition no_usable_mapping (s : state) (sp_track : SpTrack) : Prop :=
  forall tidal_id,
    mappings (world s) !! sp_id sp_track = Some tidal_id ->
    exists e, tidal_track (world s) tidal_id = Failure e.

(** A refresh request to the session mechanism. *)
Definition is_refresh (c : call) : bool :=
  match c with
  | TidalTokenRefresh => true
  | _ => false
  end.

(** A stream-URL request. *)
Definition is_url_request (c : call) : bool :=
  match c with
  | TidalGetUrl _ _ => true
  | _ => false
  end.

(** The quality [q] yields a usable stream URL for [t]. *)
Definition resolves (w : World) (t : TidalTrack) (q : quality) : bool :=
  match get_url w q t with
  | Reply u => truthy u
  | Failure _ => false
  end.

(** The URL requests for [t], one per quality. *)
Definition url_requests (t : TidalTrack) (qualities : list quality)
  : list call :=
  map (fun q => TidalGetUrl q (t_id t)) qualities.

(** A call other than the hold's pause, the forced skip and the
    favorite. *)
Definition quiet (c : call) : bool :=
  match c with
  | SpPausePlayback | SpNextTrack | TidalAddFavorite _ => false
  | _ => true
  end.

(** The tick that starts in [s] commits a track change: the snapshot
    has an item that differs from the held source track and the
    anti-flicker test lets it through. *)
Definition commits_switch (s : state) : bool :=
  match sp (self s), sp_playback (world s) with
  | Some _, Reply (Some snapshot) =>
      match item snapshot with
      | Some sp_track =>
          let p := vlc (world s) in
          let vlc_left := duration p - time p in
          track_changed (self s) sp_track
          && negb (playing p && (0 <? vlc_left) && (vlc_left <? 5000))
      | None => false
      end
  | _, _ => false
  end.

(** The log holds a favorite call that the target service accepts. *)
Definition marks_favorite (w : World) (calls : list call) : bool :=
  existsb (fun c => match c with
                    | TidalAddFavorite id =>
                        match add_favorite w id with
                        | Reply _ => true
                        | Failure _ => false
                        end
                    | _ => false
                    end) calls.

(** The favorite calls of a log. *)
Definition is_favorite (c : call) : bool :=
  match c with
  | TidalAddFavorite _ => true
  | _ => false
  end.

(** A tick of the loop, as the state it started from and its run, in
    which a favorite call was accepted. *)
Definition tick_marks (tick : state * run unit unit) : bool :=
  marks_favorite (world (fst tick)) (log (snd tick)).

(** The number of favorite calls, accepted or not, of a list of ticks. *)
Definition favorite_calls (ticks : list (state * run unit unit)) : nat :=
  length (List.filter is_favorite (concat (map (fun tick => log (snd tick)) ticks))).

(** A call made to resolve or start a track: a mapping fetch, a search,
    a session check, a stream-URL request, a player start or stop, a
    restart of the source, a mapping write, a manual-match request. *)
Definition is_resolution (c : call) : bool :=
  match c with
  | TidalTrackById _ | TidalSearch _ _ | TidalCheckLogin | TidalGetUrl _ _
  | VlcPlayUrl _ | VlcStop | SpStartPlayback | SpSeekTrack _
  | SaveMapping _ _ | RequestManualMatch _ => true
  | _ => false
  end.

(** A command to the player. *)
Definition is_player_command (c : call) : bool :=
  match c with
  | VlcPlayUrl _ | VlcPause | VlcResume | VlcStop => true
  | _ => false
  end.

(** The fields of the manager that name the tracks in hand. *)
Definition tracks_in_hand (me : SyncManager)
  : option SpTrack * option TidalTrack * bool :=
  (current_spotify_track me, current_tidal_track me,
   waiting_for_user_selection me).

(** The mapping file: what it holds and whether it can be written. *)
Definition mapping_file (w : World) : gmap string Z * bool :=
  (mappings w, mappings_writable w).

(** The calls of the mute step for a snapshot. *)
Definition mute_calls (me : SyncManager) (snapshot : Playback) : list call :=
  if mute_spotify me then
    match volume_percent snapshot with
    | Some 0 => []
    | _ => [SpVolume 0]
    end
  else [].

(** The call of the manual-match callback, when one is registered. *)
Definition request_calls (me : SyncManager) (sp_track : SpTrack) : list call :=
  match request_manual_match me with
  | Some _ => [RequestManualMatch (sp_id sp_track)]
  | None => []
  end.

(** A stream-URL request, or a start or stop of the player. *)
Definition is_stream_call (c : call) : bool :=
  match c with
  | TidalGetUrl _ _ | VlcPlayUrl _ | VlcStop => true
  | _ => false
  end.

(** What the head of a tick settles: the status and the tracks in hand. *)
Definition settled (me : SyncManager)
  : string * (option SpTrack * option TidalTrack * bool) :=
  (status me, tracks_in_hand me).

(** The commands that restart the source after a playback start. *)
Definition restart_calls (sp_is_playing : bool) : list call :=
  if sp_is_playing then [SpSeekTrack 0] else [SpStartPlayback; SpSeekTrack 0].

(** * Properties *)

(** ** Running a computation symbolically *)

Create HintDb py discriminated.

#[local] Hint Unfold bind ret return_ raise try_except def get_self get_world
  assign affect emit answer sp_request sp_current_playback tidal_check_login
  tidal_track_by_id tidal_search_tracks track_get_url tidal_add_favorite
  player_play_url player_pause player_resume player_stop player_is_playing
  player_get_time player_get_duration invoke load_mappings save_mapping : py.

(** Case analysis on the innermost scrutinee the goal is stuck on. *)
Ltac break_match :=
  match goal with
  | |- context [match ?x with _ => _ end] =>
      lazymatch x with
      | context [match _ with _ => _ end] => fail
      | _ => destruct x eqn:?
      end
  end.

Ltac open_state s :=
  let me := fresh "me" in
  let w := fresh "w" in
  destruct s as [me w]; destruct me, w; cbn in *; subst.

Ltac run_py := autounfold with py; cbn.

(** The log of a sequence starts with the log of its first part, and a
    function boundary leaves the log alone. *)
Lemma log_bind {R A B} (m : M R A) (f : A -> M R B) (s : state) :
  exists rest, log (bind m f s) = log (m s) ++ rest.
Proof.
  unfold bind. destruct (m s) as [[a|v|e] s1 l1]; cbn.
  - destruct (f a s1) as [o s2 l2]; cbn. eauto.
  - exists []. now rewrite app_nil_r.
  - exists []. now rewrite app_nil_r.
Qed.

Lemma log_def {R R'} (m : M R R) (s : state) :
  log (def (R' := R') m s) = log (m s).
Proof. unfold def. now destruct (m s) as [[a|v|e] s1 l1]. Qed.

Lemma out_def_ok {R R'} (m : M R R) (s : state) (v : R) :
  out (def (R' := R') m s) = Ok v <-> out (m s) = Ok v \/ out (m s) = Ret v.
Proof.
  unfold def. destruct (m s) as [[a|a|e] s1 l1]; cbn;
    (split; [intros H|intros [H|H]]); try discriminate H;
    try (injection H as ->); auto.
Qed.

(** ** Shutdown and the manual override *)

(** C10: [manual_map_track] called while no source track is held does
    nothing at all: the manager (current target track, waiting flag,
    status) and the collaborators (mapping store included) are left as
    they were, and no call is made, so no playback is attempted. *)
Theorem manual_map_track_without_source (t : TidalTrack) (s : state) :
  current_spotify_track (self s) = None ->
  manual_map_track (R := unit) t s = Run (Ok tt) s [].
Proof.
  intros Hnone. open_state s.
  unfold manual_map_track. run_py. reflexivity.
Qed.

(** C9 (amended): from any state and whatever the collaborators answer,
    [shutdown] clears the running flag and always commands the player
    to stop; the source pause is commanded first exactly when a Spotify
    client exists, and its failure does not prevent the stop. *)
Theorem shutdown_commands (s : state) :
  let r := shutdown (R := unit) s in
  out r = Ok tt /\
  running (self (post r)) = false /\
  log r = match sp (self s) with
          | Some _ => [SpPausePlayback; VlcStop]
          | None => [VlcStop]
          end.
Proof.
  open_state s. unfold shutdown. run_py.
  repeat (break_match; cbn); auto.
Qed.

(** ** Track matching *)

(** The scan keeps the first track that qualifies. *)
Lemma scan_tracks_first_fit (d : Z) (before after : list TidalTrack)
    (t : TidalTrack) (best : option TidalTrack) :
  Forall (fun c => duration_matches d c = false) before ->
  duration_matches d t = true ->
  scan_tracks d (before ++ t :: after) best = Some t.
Proof.
  induction 1 as [|c before Hc _ IH]; intros Ht; cbn.
  - now rewrite Ht.
  - rewrite Hc. now apply IH.
Qed.

Lemma scan_tracks_none (d : Z) (tracks : list TidalTrack)
    (best : option TidalTrack) :
  Forall (fun c => duration_matches d c = false) tracks ->
  scan_tracks d tracks best = best.
Proof.
  induction 1 as [|c tracks Hc _ IH]; cbn; [reflexivity|].
  now rewrite Hc.
Qed.

Lemma duration_matches_iff (d : Z) (t : TidalTrack) :
  duration_matches d t = true <-> Z.abs (t_duration t * 1000 - d) <= 5000.
Proof. unfold duration_matches. apply Z.leb_le. Qed.

Lemma duration_matches_false_iff (d : Z) (t : TidalTrack) :
  duration_matches d t = false <-> 5000 < Z.abs (t_duration t * 1000 - d).
Proof. unfold duration_matches. apply Z.leb_gt. Qed.

(** What the search stage alone computes, from any state. *)
Lemma search_catalog_run (sp_track : SpTrack) (s : state)
    (artist : string) (others : list string) :
  sp_artists sp_track = artist :: others ->
  let query := search_query (sp_name sp_track) artist in
  def (R' := unit) (search_catalog sp_track) s =
  Run (Ok match tidal_search (world s) query 10 with
          | Reply tracks => scan_tracks (sp_duration_ms sp_track) tracks None
          | Failure _ => None
          end)
      s [TidalSearch query 10].
Proof.
  intros Hartists. open_state s.
  unfold search_catalog. rewrite Hartists. run_py.
  repeat (break_match; cbn); congruence.
Qed.

(** C2: with no usable mapping, [search_tidal_match] is first-fit over
    the search result: it returns the first candidate, in result order,
    whose duration is within 5000 ms of the source duration, whatever
    follows it (a later candidate may be closer); it returns [None] when
    no candidate qualifies and when the search call fails. *)
Theorem search_is_first_fit (sp_track : SpTrack) (s : state)
    (artist : string) (others : list string) :
  sp_artists sp_track = artist :: others ->
  no_usable_mapping s sp_track ->
  let answer :=
    tidal_search (world s) (search_query (sp_name sp_track) artist) 10 in
  let far c := 5000 < Z.abs (t_duration c * 1000 - sp_duration_ms sp_track) in
  let found := out (search_tidal_match (R := unit) sp_track s) in
  (forall before t after,
      answer = Reply (before ++ t :: after) ->
      Forall far before ->
      Z.abs (t_duration t * 1000 - sp_duration_ms sp_track) <= 5000 ->
      found = Ok (Some t)) /\
  (forall tracks,
      answer = Reply tracks -> Forall far tracks -> found = Ok None) /\
  (forall e, answer = Failure e -> found = Ok None).
Proof.
  intros Hartists Hstale answer far found.
  assert (Hfound : found =
            Ok match answer with
               | Reply tracks =>
                   scan_tracks (sp_duration_ms sp_track) tracks None
               | Failure _ => None
               end).
  { subst found answer.
    pose proof (search_catalog_run sp_track s artist others Hartists) as Hrun.
    cbn zeta in Hrun. unfold no_usable_mapping in Hstale.
    unfold search_tidal_match, check_mappings, get_tidal_track_by_id.
    unfold def at 1. unfold bind at 1.
    unfold def in Hrun.
    destruct (mappings (world s) !! sp_id sp_track) as [tid|] eqn:Hmap.
    - destruct (Hstale tid eq_refl) as [e He].
      run_py. rewrite Hmap; cbn. rewrite He; cbn.
      destruct (search_catalog sp_track s) as [[v|v|e'] s1 l1];
        cbn in *; congruence.
    - run_py. rewrite Hmap; cbn.
      destruct (search_catalog sp_track s) as [[v|v|e'] s1 l1];
        cbn in *; congruence. }
  rewrite Hfound. repeat split.
  - intros before t after -> Hfar Hnear. f_equal.
    apply scan_tracks_first_fit.
    + eapply Forall_impl; [exact Hfar|].
      intros c Hc. now apply duration_matches_false_iff.
    + now apply duration_matches_iff.
  - intros tracks -> Hfar. f_equal.
    apply scan_tracks_none.
    eapply Forall_impl; [exact Hfar|].
    intros c Hc. now apply duration_matches_false_iff.
  - now intros e ->.
Qed.

(** C3: when the source id has a persisted mapping, the mapped target
    is fetched by id; if the fetch succeeds that track is the answer and
    nothing else is called (no search); if it fails, the call behaves as
    the search stage alone, after the one failed fetch.  Either way the
    state, and with it the mapping store, is left as it was, so the
    mapping is consulted again on the next resolution. *)
Theorem mapping_bypasses_search (sp_track : SpTrack) (s : state)
    (tidal_id : Z) :
  mappings (world s) !! sp_id sp_track = Some tidal_id ->
  let r := search_tidal_match (R := unit) sp_track s in
  (forall t, tidal_track (world s) tidal_id = Reply t ->
             r = Run (Ok (Some t)) s [TidalTrackById tidal_id]) /\
  (forall e, tidal_track (world s) tidal_id = Failure e ->
             let searched := def (R' := unit) (search_catalog sp_track) s in
             out r = out searched /\
             log r = TidalTrackById tidal_id :: log searched /\
             post r = post searched /\
             mappings (world (post r)) = mappings (world s)).
Proof.
  intros Hmap r. subst r. split.
  - intros t Ht.
    unfold search_tidal_match, check_mappings, get_tidal_track_by_id.
    run_py. rewrite Hmap; cbn. rewrite Ht; cbn. now destruct s.
  - intros e He searched. subst searched.
    unfold search_tidal_match, check_mappings, get_tidal_track_by_id.
    unfold def at 1 4 5 6. unfold bind at 1.
    run_py. rewrite Hmap; cbn. rewrite He; cbn.
    assert (Hsame : forall r0 : run (option TidalTrack) (option TidalTrack),
               r0 = search_catalog sp_track s -> post r0 = s).
    { intros r0 ->. unfold search_catalog. run_py.
      repeat (break_match; cbn); congruence. }
    specialize (Hsame _ eq_refl).
    destruct (search_catalog sp_track s) as [[v|v|e'] s1 l1];
      cbn in *; subst; auto.
Qed.

(** ** Session check *)

(** The session check touches nothing but the count of checks. *)
Lemma check_and_refresh_session_post {R} (s : state) :
  let r := check_and_refresh_session (R := R) s in
  self (post r) = self s /\
  exists n, world (post r) = set_checks_made n (world s).
Proof.
  open_state s. unfold check_and_refresh_session. run_py.
  repeat (break_match; cbn); split; eauto.
Qed.

(** C4 (amended): [attempt_play_tidal] begins with a validity check of
    the target session.  When that check says invalid, the guard asks
    for validity once more and sends no refresh request of its own; when
    the second answer is invalid too, the attempt ends with result
    [False] and status "Session Expired", having made no stream-URL
    request and given no player command. *)
Theorem session_guard (t : TidalTrack) (sp_is_playing : bool) (s : state) :
  let w := world s in
  let n := checks_made w in
  let guard := check_and_refresh_session (R := unit) s in
  let played := attempt_play_tidal (R := unit) t sp_is_playing s in
  (exists rest, log played = TidalCheckLogin :: rest) /\
  List.filter is_refresh (log guard) = [] /\
  (check_login w n = Reply true ->
   guard = Run (Ok true) (State (self s) (set_checks_made (S n) w))
             [TidalCheckLogin]) /\
  (check_login w n = Reply false ->
   log guard = [TidalCheckLogin; TidalCheckLogin] /\
   (check_login w (S n) = Reply true -> out guard = Ok true) /\
   (check_login w (S n) = Reply false ->
    out guard = Ok false /\
    played = Run (Ok false)
               (State (set_status "Session Expired" (self s))
                      (set_checks_made (S (S n)) w))
               [TidalCheckLogin; TidalCheckLogin])).
Proof.
  cbn zeta. split; [|split; [|split]].
  - unfold attempt_play_tidal. rewrite log_def.
    match goal with
    | |- context [bind ?m ?f s] => destruct (log_bind m f s) as [rest ->]
    end.
    open_state s. unfold check_and_refresh_session. run_py.
    repeat (break_match; cbn); eauto.
  - open_state s. unfold check_and_refresh_session. run_py.
    repeat (break_match; cbn); reflexivity.
  - intros Hvalid. open_state s. unfold check_and_refresh_session. run_py.
    rewrite Hvalid; cbn. reflexivity.
  - intros Hinvalid. open_state s.
    unfold attempt_play_tidal, check_and_refresh_session. run_py.
    rewrite Hinvalid; cbn. split; [|split].
    + repeat (break_match; cbn); reflexivity.
    + intros Hvalid. rewrite Hvalid; cbn. reflexivity.
    + intros Hagain. rewrite Hagain; cbn. split; reflexivity.
Qed.

(** ** Quality fallback *)

(** While no quality resolves, the loop asks for each in turn and ends
    with nothing usable. *)
Lemma try_qualities_all_fail {R} (t : TidalTrack) (qualities : list quality) :
  forall (me : SyncManager) (w : World) (url : option string) (used : string),
    Forall (fun q => resolves w t q = false) qualities ->
    truthy url = false ->
    exists url' q',
      try_qualities (R := R) t qualities url used (State me w)
      = Run (Ok (url', used)) (State me (set_config_quality q' w))
          (url_requests t qualities)
      /\ truthy url' = false.
Proof.
  induction qualities as [|q rest IH]; intros me w url used Hfail Hurl.
  - exists url, (config_quality w). destruct w; cbn. auto.
  - inversion Hfail as [|q0 rest0 Hq Hrest]; subst.
    unfold resolves in Hq. cbn [try_qualities]. run_py.
    destruct (get_url w q t) as [u|e] eqn:Hget; cbn.
    + rewrite Hq.
      destruct (IH me (set_config_quality q w) u used)
        as (url' & q' & Hrun & Hfalse); [exact Hrest | exact Hq |].
      rewrite Hrun. exists url', q'. split; [reflexivity | exact Hfalse].
    + destruct (IH me (set_config_quality q w) url used)
        as (url' & q' & Hrun & Hfalse); [exact Hrest | exact Hurl |].
      rewrite Hrun. exists url', q'. split; [reflexivity | exact Hfalse].
Qed.

(** The loop stops at the first quality that resolves. *)
Lemma try_qualities_first {R} (t : TidalTrack) (before : list quality)
    (q : quality) (after : list quality) (u : option string) :
  forall (me : SyncManager) (w : World) (url : option string) (used : string),
    Forall (fun q' => resolves w t q' = false) before ->
    get_url w q t = Reply u ->
    truthy u = true ->
    try_qualities (R := R) t (before ++ q :: after) url used (State me w)
    = Run (Ok (u, quality_label q)) (State me (set_config_quality q w))
        (url_requests t (before ++ [q])).
Proof.
  induction before as [|q0 rest IH]; intros me w url used Hfail Hget Hu.
  - cbn [app try_qualities]. run_py. rewrite Hget; cbn. now rewrite Hu.
  - inversion Hfail as [|q1 rest1 Hq Hrest]; subst.
    unfold resolves in Hq. cbn [app try_qualities]. run_py.
    destruct (get_url w q0 t) as [u0|e] eqn:Hget0; cbn.
    + rewrite Hq.
      rewrite (IH me (set_config_quality q0 w) u0 used Hrest Hget Hu).
      reflexivity.
    + rewrite (IH me (set_config_quality q0 w) url used Hrest Hget Hu).
      reflexivity.
Qed.

Lemma qualities_to_try_order :
  sublist qualities_to_try
    [Some "hi_res_lossless"; Some "high_lossless"; Some "lossless";
     Some "high"; Some "low"]
  \/ qualities_to_try = [PREFERRED_QUALITY].
Proof.
  unfold qualities_to_try, possible_attrs. cbn.
  destruct (hasattr "hi_res_lossless"), (hasattr "high_lossless"),
    (hasattr "lossless"), (hasattr "high"), (hasattr "low"); cbn;
    first [ now right | left; repeat constructor ].
Qed.

(** C5: once the session check has passed, [attempt_play_tidal] asks
    for a stream URL quality by quality, in the order of a list that
    depends on the installed library alone and follows the preference
    order hi_res_lossless, high_lossless, lossless, high, low.  At the
    first quality that yields a URL it hands that URL to the player and
    asks for no further quality; when no quality yields a URL it stops
    the player and returns [False]. *)
Theorem quality_fallback (t : TidalTrack) (sp_is_playing : bool) (s : state) :
  out (check_and_refresh_session (R := bool) s) = Ok true ->
  let w := world s in
  let checks := log (check_and_refresh_session (R := bool) s) in
  let r := attempt_play_tidal (R := unit) t sp_is_playing s in
  (sublist qualities_to_try
     [Some "hi_res_lossless"; Some "high_lossless"; Some "lossless";
      Some "high"; Some "low"]
   \/ qualities_to_try = [PREFERRED_QUALITY]) /\
  (forall before q after u,
      qualities_to_try = before ++ q :: after ->
      Forall (fun q' => resolves w t q' = false) before ->
      get_url w q t = Reply (Some u) ->
      u <> "" ->
      exists rest,
        log r = checks ++ url_requests t (before ++ [q]) ++ VlcPlayUrl u :: rest
        /\ Forall (fun c => is_url_request c = false) rest) /\
  (Forall (fun q => resolves w t q = false) qualities_to_try ->
   out r = Ok false /\
   log r = checks ++ url_requests t qualities_to_try ++ [VlcStop] /\
   playing (vlc (world (post r))) = false).
Proof.
  intros Hvalid w checks r. subst w checks r.
  split; [exact qualities_to_try_order|].
  destruct (check_and_refresh_session_post (R := bool) s) as [Hself [n Hworld]].
  remember (attempt_play_tidal (R := unit) t sp_is_playing s) as r eqn:Hr.
  unfold attempt_play_tidal in Hr.
  destruct (check_and_refresh_session (R := bool) s) as [o [me1 w1] l1] eqn:Hcheck.
  cbn in Hvalid, Hself, Hworld. subst o me1 w1. cbn [log].
  split.
  - intros before q after u Hsplit Hfail Hget Hu.
    assert (Htruthy : truthy (Some u) = true).
    { cbn. destruct (String.eqb_spec u ""); [contradiction | reflexivity]. }
    pose proof (try_qualities_first (R := bool) t before q after (Some u)
                  (self s) (set_checks_made n (world s)) None "Unknown"
                  Hfail Hget Htruthy) as Hrun.
    rewrite <- Hsplit in Hrun.
    unfold def, bind at 1 in Hr. rewrite Hcheck in Hr. cbn [negb] in Hr.
    unfold bind at 2 in Hr. unfold ret at 1 in Hr. cbn beta iota in Hr.
    unfold bind at 1 in Hr. rewrite Hrun in Hr.
    cbn [fst snd] in Hr. rewrite Htruthy in Hr.
    subst r. run_py.
    repeat (break_match; cbn);
      rewrite ?app_nil_r, <- ?app_assoc; cbn;
      eexists; (split; [reflexivity|]); repeat constructor.
  - intros Hfail.
    destruct (try_qualities_all_fail (R := bool) t qualities_to_try (self s)
                (set_checks_made n (world s)) None "Unknown" Hfail eq_refl)
      as (url' & q' & Hrun & Hfalse).
    unfold def, bind at 1 in Hr. rewrite Hcheck in Hr. cbn [negb] in Hr.
    unfold bind at 2 in Hr. unfold ret at 1 in Hr. cbn beta iota in Hr.
    unfold bind at 1 in Hr. rewrite Hrun in Hr.
    cbn [fst snd] in Hr. rewrite Hfalse in Hr.
    subst r. run_py.
    rewrite ?app_nil_r, <- ?app_assoc. auto.
Qed.

(** ** The tick *)

#[local] Hint Unfold sync_logic sync_logic_head mute_spotify_logic get_art
  track_change playback_monitor pause_resume_sync auto_favorite_check
  end_of_track_handling track_changed : py.

(** C6 (amended): on a tick whose snapshot item differs from the held
    source track, if the player is playing with strictly more than 0 and
    less than 5000 ms left, the tick ends there: the held source track
    is not replaced, nothing is searched or played (the only calls are
    the snapshot and possibly the mute), the collaborators are left as
    they were, and the same snapshot still counts as a change on the
    next tick. *)
Theorem anti_flicker_guard (s : state) (snapshot : Playback)
    (sp_track : SpTrack) :
  sp (self s) = Some tt ->
  sp_playback (world s) = Reply (Some snapshot) ->
  item snapshot = Some sp_track ->
  track_changed (self s) sp_track = true ->
  playing (vlc (world s)) = true ->
  0 < duration (vlc (world s)) - time (vlc (world s)) < 5000 ->
  let r := sync_logic (R := unit) s in
  out r = Ok tt /\
  self (post r) = set_current_image_url (head (sp_images sp_track)) (self s) /\
  world (post r) = world s /\
  (log r = [SpCurrentPlayback] \/ log r = [SpCurrentPlayback; SpVolume 0]) /\
  track_changed (self (post r)) sp_track = true.
Proof.
  intros Hsp Hsnap Hitem Hchanged Hplaying Hleft.
  destruct snapshot as [it live progress volume]. cbn in Hitem. subst it.
  open_state s. unfold track_changed in *. cbn in Hchanged.
  assert (Hlow : (0 <? duration vlc0 - time vlc0) = true) by (apply Z.ltb_lt; lia).
  assert (Hhigh : (duration vlc0 - time vlc0 <? 5000) = true) by (apply Z.ltb_lt; lia).
  run_py.
  repeat (first [ rewrite Hchanged | rewrite Hplaying | rewrite Hlow
                | rewrite Hhigh | break_match ]; cbn);
    auto 10.
Qed.

(** ** What a piece of code leaves alone

    A computation is tame, for a field of the manager and a set of
    allowed calls, when from every state it leaves the field as it was
    and logs allowed calls only. *)

Section Tame.

Context {X : Type}.
Variable field : SyncManager -> X.
Variable allowed : call -> Prop.

Definition tame {R A} (m : M R A) : Prop :=
  forall s, field (self (post (m s))) = field (self s)
            /\ Forall allowed (log (m s)).

Lemma tame_ret {R A} (a : A) : tame (ret (R := R) a).
Proof. intros s; cbn; auto. Qed.

Lemma tame_return {R A} (v : R) : tame (return_ (A := A) v).
Proof. intros s; cbn; auto. Qed.

Lemma tame_raise {R A} (e : exn) : tame (raise (R := R) (A := A) e).
Proof. intros s; cbn; auto. Qed.

Lemma tame_get_self {R} : tame (get_self (R := R)).
Proof. intros s; cbn; auto. Qed.

Lemma tame_get_world {R} : tame (get_world (R := R)).
Proof. intros s; cbn; auto. Qed.

Lemma tame_affect {R} (f : World -> World) : tame (affect (R := R) f).
Proof. intros s; cbn; auto. Qed.

Lemma tame_assign {R} (f : SyncManager -> SyncManager) :
  (forall me, field (f me) = field me) -> tame (assign (R := R) f).
Proof. intros Hf s; cbn; auto. Qed.

Lemma tame_emit {R} (c : call) : allowed c -> tame (emit (R := R) c).
Proof. intros Hc s; cbn; auto. Qed.

Lemma tame_answer {R A} (r : reply A) : tame (answer (R := R) r).
Proof. destruct r; [apply tame_ret | apply tame_raise]. Qed.

Lemma tame_bind {R A B} (m : M R A) (f : A -> M R B) :
  tame m -> (forall a, tame (f a)) -> tame (bind m f).
Proof.
  intros Hm Hf s. unfold bind.
  destruct (Hm s) as [Hrun Hlog].
  destruct (m s) as [[a|v|e] s1 l1]; cbn in *; auto.
  destruct (Hf a s1) as [Hrun' Hlog'].
  destruct (f a s1) as [o s2 l2]; cbn in *.
  split; [congruence | now apply Forall_app].
Qed.

Lemma tame_try_except {R A} (body : M R A) (handler : exn -> M R A) :
  tame body -> (forall e, tame (handler e)) -> tame (try_except body handler).
Proof.
  intros Hm Hf s. unfold try_except.
  destruct (Hm s) as [Hrun Hlog].
  destruct (body s) as [[a|v|e] s1 l1]; cbn in *; auto.
  destruct (Hf e s1) as [Hrun' Hlog'].
  destruct (handler e s1) as [o s2 l2]; cbn in *.
  split; [congruence | now apply Forall_app].
Qed.

Lemma tame_def {R R'} (m : M R R) : tame m -> tame (def (R' := R') m).
Proof.
  intros Hm s. unfold def. destruct (Hm s) as [Hrun Hlog].
  destruct (m s) as [[a|v|e] s1 l1]; cbn in *; auto.
Qed.

End Tame.

(** Structural proof search for [tame]: [allowed_tac] shows that a call
    is allowed, [assign_tac] that an assignment leaves the field alone. *)
Ltac tame_step allowed_tac assign_tac :=
  first
    [ apply tame_ret | apply tame_return | apply tame_raise
    | apply tame_get_self | apply tame_get_world | apply tame_affect
    | apply tame_answer
    | apply tame_assign; intros ?; assign_tac
    | apply tame_emit; allowed_tac
    | apply tame_def
    | apply tame_bind; [|intros ?]
    | apply tame_try_except; [|intros ?]
    | match goal with
      | |- tame _ _ (match ?x with _ => _ end) => destruct x
      | |- tame _ _ (let _ := _ in _) => cbv zeta
      end ].

Create HintDb collaborators discriminated.

#[local] Hint Unfold sp_request sp_current_playback tidal_check_login
  tidal_track_by_id tidal_search_tracks track_get_url tidal_add_favorite
  player_play_url player_pause player_resume player_stop player_is_playing
  player_get_time player_get_duration invoke load_mappings save_mapping
  : collaborators.

Ltac tame_with allowed_tac assign_tac :=
  autounfold with collaborators; repeat tame_step allowed_tac assign_tac.

(** The code outside the hold and the favorite: it logs quiet calls only
    and leaves alone every field that the assignments it contains leave
    alone. *)
Section Quietness.

Context {X : Type}.
Variable field : SyncManager -> X.
Variable allowed : call -> Prop.
Hypothesis allowed_quiet : forall c, quiet c = true -> allowed c.
Hypothesis keeps_status : forall v me, field (set_status v me) = field me.
Hypothesis keeps_image :
  forall v me, field (set_current_image_url v me) = field me.
Hypothesis keeps_source :
  forall v me, field (set_current_spotify_track v me) = field me.
Hypothesis keeps_target :
  forall v me, field (set_current_tidal_track v me) = field me.
Hypothesis keeps_waiting :
  forall v me, field (set_waiting_for_user_selection v me) = field me.
Hypothesis keeps_favorited :
  forall v me, field (set_current_song_favorited v me) = field me.

Ltac quiet_call := apply allowed_quiet; reflexivity.
Ltac kept :=
  first [ apply keeps_status | apply keeps_image | apply keeps_source
        | apply keeps_target | apply keeps_waiting | apply keeps_favorited ].

Lemma tame_check_and_refresh_session {R} :
  tame field allowed (check_and_refresh_session (R := R)).
Proof. unfold check_and_refresh_session. tame_with quiet_call kept. Qed.

Lemma tame_search_tidal_match {R} (sp_track : SpTrack) :
  tame field allowed (search_tidal_match (R := R) sp_track).
Proof.
  unfold search_tidal_match, check_mappings, search_catalog,
    get_tidal_track_by_id.
  tame_with quiet_call kept.
Qed.

Lemma tame_try_qualities {R} (t : TidalTrack) (qualities : list quality) :
  forall url used,
    tame field allowed (try_qualities (R := R) t qualities url used).
Proof.
  induction qualities as [|q rest IH]; intros url used; cbn [try_qualities].
  - apply tame_ret.
  - tame_with quiet_call kept; apply IH.
Qed.

Lemma tame_attempt_play_tidal {R} (t : TidalTrack) (sp_is_playing : bool) :
  tame field allowed (attempt_play_tidal (R := R) t sp_is_playing).
Proof.
  unfold attempt_play_tidal.
  apply tame_def. apply tame_bind; [apply tame_check_and_refresh_session|].
  intros valid. apply tame_bind; [tame_with quiet_call kept|].
  intros ?. apply tame_bind; [apply tame_try_qualities|].
  intros found. tame_with quiet_call kept.
Qed.

Lemma tame_sync_logic_head : tame field allowed sync_logic_head.
Proof.
  unfold sync_logic_head, mute_spotify_logic, get_art, track_change.
  repeat first
    [ apply tame_search_tidal_match
    | apply tame_attempt_play_tidal
    | tame_step quiet_call kept
    | progress autounfold with collaborators ].
Qed.

Lemma tame_pause_resume_sync (sp_is_playing : bool) :
  tame field allowed (pause_resume_sync sp_is_playing).
Proof. unfold pause_resume_sync. tame_with quiet_call kept. Qed.

End Quietness.

(** ** The control loop *)

Ltac any_call := exact I.
Ltac same_field := reflexivity.

Lemma sync_logic_keeps_running {R} :
  tame running (fun _ => True) (sync_logic (R := R)).
Proof.
  unfold sync_logic. apply tame_def. apply tame_bind.
  - apply tame_sync_logic_head; auto.
  - intros found.
    unfold playback_monitor, pause_resume_sync, auto_favorite_check,
      end_of_track_handling.
    tame_with any_call same_field.
Qed.

Lemma loop_body_keeps_running {R} :
  tame running (fun _ => True) (loop_body (R := R)).
Proof.
  unfold loop_body, get_debug_info.
  apply tame_try_except; [|intros ?; apply tame_ret].
  apply tame_bind; [apply sync_logic_keeps_running|].
  intros ?. tame_with any_call same_field.
Qed.

Lemma window_keeps_running {R} (a : window_action) :
  a <> CloseWindow -> tame running (fun _ => True) (window (R := R) a).
Proof.
  intros Hopen. destruct a; try contradiction; cbn [window].
  - apply tame_ret.
  - unfold manual_map_track.
    repeat first
      [ apply tame_attempt_play_tidal; auto
      | tame_step any_call same_field
      | progress autounfold with collaborators ].
  - tame_with any_call same_field.
  - unfold toggle_play. tame_with any_call same_field.
  - unfold next_track. tame_with any_call same_field.
Qed.

(** A function call never ends in a pending [return]. *)
Lemma def_no_return {R R'} (m : M R R) (s : state) (v : R') :
  out (def (R' := R') m s) <> Ret v.
Proof. unfold def. now destruct (m s) as [[a|a|e] s1 l1]. Qed.

(** The tick boundary: whatever happens inside, the body of the loop
    ends normally. *)
Lemma loop_body_ends_normally (s : state) :
  out (loop_body (R := unit) s) = Ok tt.
Proof.
  unfold loop_body, try_except, bind at 1.
  pose proof (def_no_return (R' := unit)
                (found <- sync_logic_head ;;
                 playback_monitor (fst found) (snd found)) s) as Hdef.
  fold (sync_logic (R := unit)) in Hdef.
  destruct (sync_logic (R := unit) s) as [[[]|v|e] s1 l1]; cbn.
  - destruct s1 as [me1 w1]. unfold get_debug_info. run_py.
    repeat (break_match; cbn); reflexivity.
  - now destruct (Hdef v).
  - reflexivity.
Qed.

Lemma while_running_all_ticks (schedule : list period) :
  forall me,
    running me = true ->
    Forall (fun p => action p <> CloseWindow) schedule ->
    length (snd (while_running me schedule)) = length schedule.
Proof.
  induction schedule as [|p rest IH]; intros me Hrun Hopen; [reflexivity|].
  inversion Hopen as [|p0 rest0 Hp Hrest]; subst.
  cbn [while_running]. rewrite Hrun. cbn [snd length]. f_equal.
  apply IH; [|exact Hrest].
  destruct (window_keeps_running (R := unit) (action p) Hp
              (post (loop_body (R := unit) (State me (found_world p)))))
    as [-> _].
  destruct (loop_body_keeps_running (R := unit) (State me (found_world p)))
    as [-> _].
  exact Hrun.
Qed.

(** C7: the body of the loop catches every exception of its tick (the
    snapshot, the matching, the playback, the status callback): it
    always ends normally and leaves the running flag as it was.  The
    only action of the window that changes the flag is the shutdown.
    So, once the login has succeeded, the loop runs one tick for every
    period of a schedule without shutdown, whatever fails inside the
    ticks. *)
Theorem control_loop_survives_ticks (login : M bool bool) :
  (forall s, out (loop_body (R := unit) s) = Ok tt /\
             running (self (post (loop_body (R := unit) s)))
             = running (self s)) /\
  (forall a s, a <> CloseWindow ->
               running (self (post (window (R := unit) a s)))
               = running (self s)) /\
  (forall s schedule,
      out (def (R' := unit) login s) = Ok true ->
      running (self (post (def (R' := unit) login s))) = true ->
      Forall (fun p => action p <> CloseWindow) schedule ->
      length (snd (control_loop login s schedule)) = length schedule).
Proof.
  split; [|split].
  - intros s. split; [apply loop_body_ends_normally|].
    apply (loop_body_keeps_running (R := unit) s).
  - intros a s Hopen. apply (window_keeps_running (R := unit) a Hopen s).
  - intros s schedule Hlogin Hrun Hopen. unfold control_loop.
    destruct (def (R' := unit) login s) as [o s1 l1]; cbn in Hlogin, Hrun.
    subst o. now apply while_running_all_ticks.
Qed.

(** ** The buffering hold *)

(** Boolean tests of the code, read as propositions. *)
Ltac reflect_tests :=
  repeat match goal with
    | H : _ && _ = true |- _ => apply andb_true_iff in H; destruct H
    | H : _ && _ = false |- _ => apply andb_false_iff in H; destruct H
    | H : _ || _ = true |- _ => apply orb_true_iff in H; destruct H
    | H : _ || _ = false |- _ => apply orb_false_iff in H; destruct H
    | H : negb _ = true |- _ => apply negb_true_iff in H
    | H : negb _ = false |- _ => apply negb_false_iff in H
    | H : (_ <? _) = true |- _ => apply Z.ltb_lt in H
    | H : (_ <? _) = false |- _ => apply Z.ltb_ge in H
    | H : (_ >? _) = true |- _ => rewrite Z.gtb_ltb in H; apply Z.ltb_lt in H
    | H : (_ >? _) = false |- _ => rewrite Z.gtb_ltb in H; apply Z.ltb_ge in H
    | H : (_ <=? _) = true |- _ => apply Z.leb_le in H
    | H : (_ <=? _) = false |- _ => apply Z.leb_gt in H
    | H : (_ =? _) = true |- _ => apply Z.eqb_eq in H
    | H : (_ =? _) = false |- _ => apply Z.eqb_neq in H
    end.

(** The head of the tick leaves the hold flag alone and logs neither the
    hold's pause, nor the forced skip, nor a favorite. *)
Lemma sync_logic_head_quiet (s : state) :
  is_paused_waiting (self (post (sync_logic_head s)))
  = is_paused_waiting (self s)
  /\ Forall (fun c => quiet c = true) (log (sync_logic_head s)).
Proof. apply tame_sync_logic_head; auto. Qed.

Lemma quiet_log_no_transport (calls : list call) :
  Forall (fun c => quiet c = true) calls ->
  ~ In SpPausePlayback calls /\ ~ In SpNextTrack calls
  /\ forall id, ~ In (TidalAddFavorite id) calls.
Proof.
  intros Hquiet. rewrite Forall_forall in Hquiet.
  repeat split; [intros Hin | intros Hin | intros id Hin];
    apply list_elem_of_In in Hin; apply Hquiet in Hin; discriminate.
Qed.

(** C1 (amended): take a tick that hands the snapshot to the playback
    monitor in state [s1] (no Spotify error, an item, no anti-flicker
    return), with a target track active and no manual match awaited,
    and that raises no exception.  With [source_left] and [target_left]
    the remaining times of the two tracks and [holding] the hold flag at
    the start of the tick:
    - the source is paused for the hold iff [source_left < 3000],
      [target_left > 5000] and the hold is not already active;
    - the source is forced to its next track iff the hold is active
      (already, or since this tick) and [target_left < 1000] or the
      player is not playing;
    - the hold flag is set at the end of the tick iff the hold is active
      and is not released. *)
Theorem buffering_hold (s s1 : state) (sp_track : SpTrack)
    (snapshot : Playback) (calls : list call) :
  sync_logic_head s = Run (Ok (sp_track, snapshot)) s1 calls ->
  current_tidal_track (self s1) <> None ->
  waiting_for_user_selection (self s1) = false ->
  let r := sync_logic (R := unit) s in
  out r = Ok tt ->
  let source_left := sp_duration_ms sp_track - progress_ms snapshot in
  let target_left := duration (vlc (world s1)) - time (vlc (world s1)) in
  let holding := is_paused_waiting (self s) in
  let busy := playing (vlc (world (post r))) in
  let activates :=
    source_left < 3000 /\ target_left > 5000 /\ holding = false in
  let releases := target_left < 1000 \/ busy = false in
  (In SpPausePlayback (log r) <-> activates) /\
  (In SpNextTrack (log r) <-> (holding = true \/ activates) /\ releases) /\
  (is_paused_waiting (self (post r)) = true
   <-> (holding = true \/ activates) /\ ~ releases).
Proof.
  intros Hhead Htarget Hwaiting r.
  destruct (sync_logic_head_quiet s) as [Hflag Hquiet].
  rewrite Hhead in Hflag, Hquiet. cbn in Hflag, Hquiet.
  apply quiet_log_no_transport in Hquiet.
  destruct Hquiet as (Hpause & Hnext & _).
  rewrite <- Hflag. clear Hflag.
  assert (Hr : r = sync_logic (R := unit) s) by reflexivity.
  clearbody r. revert Hr.
  unfold sync_logic, def, bind at 1. rewrite Hhead. cbn [fst snd].
  clear Hhead.
  open_state s1. destruct current_tidal_track0 as [target|]; [|contradiction].
  clear Htarget. destruct snapshot as [it live progress volume].
  run_py.
  repeat (break_match; cbn);
    intros -> Hout; cbn in Hout; try discriminate Hout; cbn;
    rewrite ?in_app_iff; cbn [In];
    reflect_tests; subst; cbn in *; try discriminate;
    try (intuition (try lia; try congruence; try discriminate)).
Qed.

(** ** Auto-favorite *)

(** The test holds when the quotient is above [below_090]; for a
    duration of at most 2^51 ms (some 70000 years) no quotient lies
    between [below_090] and 9/10, and the test is the comparison of the
    quotient with 9/10. *)
Lemma ratio_reached_spec (elapsed total : Z) :
  total <> 0 ->
  ratio_reached elapsed total = true
  <-> (below_090 < inject_Z elapsed / inject_Z total)%Q.
Proof.
  intros Hnz.
  unfold ratio_reached, below_090, Qlt, Qdiv, Qmult, Qinv, inject_Z.
  destruct total as [|p|p]; [contradiction| |]; cbn [Qnum Qden Z.ltb Z.compare].
  - change (0 ?= Z.pos p) with Lt. cbn. rewrite Z.ltb_lt. lia.
  - change (0 ?= Z.neg p) with Gt. cbn. rewrite Z.ltb_lt. lia.
Qed.

Lemma ratio_reached_090 (elapsed total : Z) :
  total <> 0 ->
  Z.abs total <= 2 ^ 51 ->
  ratio_reached elapsed total = true
  <-> (9 # 10 <= inject_Z elapsed / inject_Z total)%Q.
Proof.
  intros Hnz Hbound.
  unfold ratio_reached, below_090, Qle, Qdiv, Qmult, Qinv, inject_Z.
  change (2 ^ 51) with 2251799813685248 in Hbound.
  destruct total as [|p|p]; [contradiction| |]; cbn [Qnum Qden Z.ltb Z.compare].
  - change (0 ?= Z.pos p) with Lt. cbn. rewrite Z.ltb_lt. lia.
  - change (0 ?= Z.neg p) with Gt. cbn. rewrite Z.ltb_lt. lia.
Qed.

Ltac prune_steady :=
  try match goal with
      | |- _ -> true = false -> _ => intros ? Hno; discriminate Hno
      end.

(** The head of a tick that commits no track change leaves the favorite
    flag and the favorite service alone. *)
Lemma sync_logic_head_steady (s : state) :
  commits_switch s = false ->
  let r := sync_logic_head s in
  current_song_favorited (self (post r)) = current_song_favorited (self s)
  /\ add_favorite (world (post r)) = add_favorite (world s).
Proof.
  intros Hsteady r.
  assert (Hr : r = sync_logic_head s) by reflexivity.
  clearbody r. revert Hr Hsteady.
  open_state s. unfold commits_switch. run_py.
  repeat (break_match; cbn; prune_steady);
    intros -> _; cbn; auto.
Qed.

Ltac refused_favorite :=
  match goal with
  | H : ?f ?x = Failure _, H' : context [match ?f ?x with _ => _ end] |- _ =>
      rewrite H in H'; cbn in H'; discriminate H'
  end.

(** The favorite step inside the monitor. *)
Lemma playback_monitor_favorite (sp_track : SpTrack) (snapshot : Playback)
    (s1 : state) :
  let r := playback_monitor sp_track snapshot s1 in
  let p := vlc (world (post r)) in
  (forall id, In (TidalAddFavorite id) (log r) ->
              auto_favorite (self s1) = true /\ playing p = true
              /\ duration p <> 0
              /\ ratio_reached (time p) (duration p) = true) /\
  (current_song_favorited (self s1) = true ->
   List.filter is_favorite (log r) = []
   /\ current_song_favorited (self (post r)) = true) /\
  (marks_favorite (world s1) (log r) = true ->
   current_song_favorited (self (post r)) = true).
Proof.
  intros r.
  assert (Hr : r = playback_monitor sp_track snapshot s1) by reflexivity.
  clearbody r. revert Hr.
  open_state s1. destruct snapshot as [it live progress volume].
  run_py.
  repeat (break_match; cbn);
    intros ->; cbn;
    reflect_tests; subst; cbn in *; try discriminate;
    (split; [|split]);
    try (intros id Hin);
    try (intuition (try lia; try congruence; try discriminate;
                    try refused_favorite)).
Qed.

Arguments marks_favorite : simpl never.

Lemma marks_favorite_app (w : World) (l1 l2 : list call) :
  marks_favorite w (l1 ++ l2) = marks_favorite w l1 || marks_favorite w l2.
Proof. unfold marks_favorite. apply existsb_app. Qed.

Lemma marks_favorite_quiet (w : World) (calls : list call) :
  Forall (fun c => quiet c = true) calls -> marks_favorite w calls = false.
Proof.
  unfold marks_favorite.
  induction 1 as [|c calls Hc _ IH]; [reflexivity|].
  cbn. rewrite IH. now destruct c.
Qed.

Lemma marks_favorite_same_service (w w' : World) (calls : list call) :
  add_favorite w = add_favorite w' ->
  marks_favorite w calls = marks_favorite w' calls.
Proof. intros Hsame. unfold marks_favorite. now rewrite Hsame. Qed.

Lemma favorites_of_quiet (calls : list call) :
  Forall (fun c => quiet c = true) calls -> List.filter is_favorite calls = [].
Proof.
  induction 1 as [|c calls Hc _ IH]; [reflexivity|].
  cbn. rewrite IH. now destruct c.
Qed.

Lemma sync_logic_head_log (s : state) :
  Forall (fun c => quiet c = true) (log (sync_logic_head s)).
Proof. apply (sync_logic_head_quiet s). Qed.

Lemma sync_logic_head_keeps_auto_favorite (s : state) :
  auto_favorite (self (post (sync_logic_head s))) = auto_favorite (self s).
Proof.
  apply (tame_sync_logic_head auto_favorite (fun _ => True)); auto.
Qed.

(** The favorite call within one tick. *)
Lemma sync_logic_favorite (s : state) :
  let r := sync_logic (R := unit) s in
  let p := vlc (world (post r)) in
  (forall id, In (TidalAddFavorite id) (log r) ->
              auto_favorite (self s) = true /\ playing p = true
              /\ duration p <> 0
              /\ ratio_reached (time p) (duration p) = true) /\
  (commits_switch s = false ->
   (current_song_favorited (self s) = true ->
    List.filter is_favorite (log r) = []
    /\ current_song_favorited (self (post r)) = true) /\
   (marks_favorite (world s) (log r) = true ->
    current_song_favorited (self (post r)) = true)).
Proof.
  cbn zeta. unfold sync_logic, def, bind.
  pose proof (sync_logic_head_log s) as Hquiet.
  pose proof (sync_logic_head_keeps_auto_favorite s) as Hauto.
  pose proof (sync_logic_head_steady s) as Hsteady. cbn zeta in Hsteady.
  destruct (sync_logic_head s) as [[[sp_track snapshot]|v|e] s1 l1];
    cbn in Hquiet, Hauto, Hsteady; cbv beta iota; cbn [fst snd].
  - pose proof (playback_monitor_favorite sp_track snapshot s1) as Hmon.
    cbn zeta in Hmon.
    destruct (playback_monitor sp_track snapshot s1) as [o s2 l2].
    destruct Hmon as (Hcall & Hset & Hmark).
    destruct (quiet_log_no_transport l1 Hquiet) as (_ & _ & Hnone).
    destruct o as [?|?|?]; cbn in Hcall, Hset, Hmark |- *;
      (split;
       [ intros id Hin; apply in_app_iff in Hin;
         destruct Hin as [Hin|Hin]; [now destruct (Hnone id)|];
         rewrite <- Hauto; now apply (Hcall id)
       | intros Hno; destruct (Hsteady Hno) as [Hflag Hservice];
         rewrite <- Hflag; split;
         [ intros Hon; rewrite List.filter_app, (favorites_of_quiet l1 Hquiet);
           now apply Hset
         | rewrite marks_favorite_app, (marks_favorite_quiet _ l1 Hquiet);
           rewrite <- (marks_favorite_same_service _ _ l2 Hservice);
           exact Hmark ] ]).
  - destruct (quiet_log_no_transport l1 Hquiet) as (_ & _ & Hnone).
    cbn. split; [intros id Hin; now destruct (Hnone id)|].
    intros Hno. destruct (Hsteady Hno) as [Hflag _]. rewrite Hflag.
    rewrite (favorites_of_quiet l1 Hquiet), (marks_favorite_quiet _ l1 Hquiet).
    split; [auto | discriminate].
  - destruct (quiet_log_no_transport l1 Hquiet) as (_ & _ & Hnone).
    cbn. split; [intros id Hin; now destruct (Hnone id)|].
    intros Hno. destruct (Hsteady Hno) as [Hflag _]. rewrite Hflag.
    rewrite (favorites_of_quiet l1 Hquiet), (marks_favorite_quiet _ l1 Hquiet).
    split; [auto | discriminate].
Qed.

Lemma marks_favorite_none (w : World) (calls : list call) :
  List.filter is_favorite calls = [] -> marks_favorite w calls = false.
Proof.
  unfold marks_favorite.
  induction calls as [|c calls IH]; [reflexivity|].
  cbn. destruct c; cbn; try exact IH; discriminate.
Qed.

Lemma bind_unfold {R A B} (m : M R A) (f : A -> M R B) (s : state) :
  bind m f s
  = match m s with
    | Run (Ok a) s1 l1 =>
        match f a s1 with
        | Run o s2 l2 => Run o s2 (l1 ++ l2)
        end
    | Run (Ret v) s1 l1 => Run (Ret v) s1 l1
    | Run (Raise e) s1 l1 => Run (Raise e) s1 l1
    end.
Proof. reflexivity. Qed.

(** The status callback adds nothing but its own call to the tick. *)
Lemma loop_body_after_tick (s : state) :
  exists extra,
    self (post (loop_body (R := unit) s)) = self (post (sync_logic (R := unit) s))
    /\ log (loop_body (R := unit) s) = log (sync_logic (R := unit) s) ++ extra
    /\ Forall (fun c => quiet c = true) extra.
Proof.
  unfold loop_body, try_except.
  rewrite !(bind_unfold (sync_logic (R := unit))).
  destruct (sync_logic (R := unit) s) as [[[]|v|e] s1 l1]; cbn.
  - open_state s1. unfold get_debug_info. run_py.
    repeat (break_match; cbn);
      (eexists; split; [reflexivity|];
       split; [rewrite <- ?app_assoc; reflexivity | repeat constructor]).
  - exists []. rewrite app_nil_r. auto.
  - exists []. rewrite app_nil_r. auto.
Qed.

Lemma steady_tick (s : state) :
  commits_switch s = false ->
  let r := loop_body (R := unit) s in
  (current_song_favorited (self s) = true ->
   marks_favorite (world s) (log r) = false
   /\ current_song_favorited (self (post r)) = true) /\
  (marks_favorite (world s) (log r) = true ->
   current_song_favorited (self (post r)) = true).
Proof.
  intros Hsteady r. subst r.
  destruct (loop_body_after_tick s) as (extra & -> & -> & Hextra).
  destruct (sync_logic_favorite s) as [_ Htick]. cbn zeta in Htick.
  destruct (Htick Hsteady) as [Hset Hmark].
  rewrite marks_favorite_app, (marks_favorite_quiet _ extra Hextra), orb_false_r.
  split; [|exact Hmark].
  intros Hon. destruct (Hset Hon) as [Hnone Hstill].
  split; [now apply marks_favorite_none | exact Hstill].
Qed.

Lemma window_keeps_favorited {R} (a : window_action) :
  tame current_song_favorited (fun _ => True) (window (R := R) a).
Proof.
  destruct a; cbn [window].
  - apply tame_ret.
  - unfold shutdown. tame_with any_call same_field.
  - unfold manual_map_track.
    repeat first
      [ apply tame_attempt_play_tidal; auto
      | tame_step any_call same_field
      | progress autounfold with collaborators ].
  - tame_with any_call same_field.
  - unfold toggle_play. tame_with any_call same_field.
  - unfold next_track. tame_with any_call same_field.
Qed.

(** Over a run of the loop in which no tick commits a track change, at
    most one tick has an accepted favorite call, and none once the flag
    is set. *)
Lemma steady_run_marks_once (schedule : list period) :
  forall me,
    let ticks := snd (while_running me schedule) in
    Forall (fun tick => commits_switch (fst tick) = false) ticks ->
    (current_song_favorited me = true -> List.filter tick_marks ticks = [])
    /\ (length (List.filter tick_marks ticks) <= 1)%nat.
Proof.
  induction schedule as [|p rest IH]; intros me ticks Hsteady;
    [cbn; auto|].
  subst ticks. cbn [while_running] in *.
  destruct (running me); [|cbn; auto].
  cbn [fst snd] in *.
  inversion Hsteady as [|tick ticks Htick Hrest]; subst. cbn [fst] in Htick.
  set (s := State me (found_world p)) in *.
  destruct (steady_tick s Htick) as [Hset Hmark]. cbn zeta in Hset, Hmark.
  destruct (window_keeps_favorited (R := unit) (action p)
              (post (loop_body (R := unit) s))) as [Hwindow _].
  specialize (IH _ Hrest). cbn zeta in IH. destruct IH as [IHset IHonce].
  cbn [List.filter].
  assert (Htm : tick_marks (s, loop_body (R := unit) s)
                = marks_favorite (world s) (log (loop_body (R := unit) s)))
    by reflexivity.
  rewrite Htm. clear Htm.
  split.
  - intros Hon. destruct (Hset Hon) as [-> Hstill].
    apply IHset. now rewrite Hwindow.
  - destruct (marks_favorite (world s) (log (loop_body (R := unit) s))) eqn:Hm.
    + rewrite IHset; [cbn; lia|]. rewrite Hwindow. now apply Hmark.
    + exact IHonce.
Qed.

Ltac prune_switch :=
  try match goal with
      | |- false = true -> _ => intros Hno; discriminate Hno
      end.

(** A tick that commits a track change runs as if the favorite flag
    were clear, whatever it was. *)
Lemma switch_resets_favorited (s : state) :
  commits_switch s = true ->
  sync_logic (R := unit)
    (State (set_current_song_favorited true (self s)) (world s))
  = sync_logic (R := unit)
      (State (set_current_song_favorited false (self s)) (world s)).
Proof.
  open_state s. unfold commits_switch. cbn.
  unfold sync_logic, sync_logic_head, mute_spotify_logic, get_art,
    track_change, track_changed.
  autounfold with collaborators.
  unfold def, bind, try_except, ret, return_, raise, get_self, get_world,
    assign, affect, emit, answer. cbn.
  repeat (first [ intros _; reflexivity | break_match; cbn; prune_switch ]).
Qed.

(** The head of a tick that commits no track change resolves nothing
    and leaves the tracks in hand. *)
Lemma sync_logic_head_steady_calls (s : state) :
  commits_switch s = false ->
  let r := sync_logic_head s in
  tracks_in_hand (self (post r)) = tracks_in_hand (self s)
  /\ Forall (fun c => is_resolution c = false) (log r).
Proof.
  intros Hsteady r.
  assert (Hr : r = sync_logic_head s) by reflexivity.
  clearbody r. revert Hr Hsteady.
  open_state s. unfold commits_switch. run_py.
  repeat (break_match; cbn; prune_steady);
    intros -> _; cbn; split; try reflexivity; repeat constructor.
Qed.

(** When the favorite is due: the flag is clear, and at the favorite
    check the player is playing, with a duration, past the ratio. *)
Lemma playback_monitor_fires (sp_track : SpTrack) (snapshot : Playback)
    (s1 : state) (t : TidalTrack) :
  current_tidal_track (self s1) = Some t ->
  waiting_for_user_selection (self s1) = false ->
  auto_favorite (self s1) = true ->
  current_song_favorited (self s1) = false ->
  let r := playback_monitor sp_track snapshot s1 in
  let p := vlc (world (post r)) in
  let due := playing p = true /\ duration p <> 0
             /\ ratio_reached (time p) (duration p) = true in
  (due -> List.filter is_favorite (log r) = [TidalAddFavorite (t_id t)]) /\
  (~ due -> List.filter is_favorite (log r) = []) /\
  (current_song_favorited (self (post r)) = true
   <-> due /\ exists u, add_favorite (world s1) (t_id t) = Reply u) /\
  (tracks_in_hand (self (post r)) = tracks_in_hand (self s1)
   /\ auto_favorite (self (post r)) = true
   /\ sp (self (post r)) = sp (self s1)).
Proof.
  intros Htarget Hwaiting Hauto Hclear r.
  assert (Hr : r = playback_monitor sp_track snapshot s1) by reflexivity.
  clearbody r. revert Hr.
  open_state s1. destruct snapshot as [it live progress volume].
  run_py.
  repeat (break_match; cbn).
  all: intros ->; cbn; reflect_tests; subst; cbn in *; try discriminate.
  all: (split; [|split; [|split; [split|]]]);
    [ intros (Hp & Hd & Hr);
      first [ reflexivity | discriminate | congruence | lia ]
    | intros Hn;
      first [ reflexivity
            | exfalso; apply Hn; repeat split;
              first [ assumption | congruence | lia ] ]
    | intros Hf;
      first [ discriminate Hf
            | repeat split; eauto; first [ congruence | lia ] ]
    | intros ((Hp & Hd & Hr) & [u' Hu]);
      first [ reflexivity | discriminate | congruence | lia ]
    | repeat split; reflexivity ].
Qed.

(** The same for the whole tick. *)
Lemma sync_logic_fires (s s1 : state) (sp_track : SpTrack)
    (snapshot : Playback) (calls : list call) (t : TidalTrack) :
  sync_logic_head s = Run (Ok (sp_track, snapshot)) s1 calls ->
  current_tidal_track (self s1) = Some t ->
  waiting_for_user_selection (self s1) = false ->
  auto_favorite (self s1) = true ->
  current_song_favorited (self s1) = false ->
  let r := sync_logic (R := unit) s in
  let p := vlc (world (post r)) in
  let due :=
    playing p = true /\ duration p <> 0
    /\ (below_090 < inject_Z (time p) / inject_Z (duration p))%Q in
  (due -> List.filter is_favorite (log r) = [TidalAddFavorite (t_id t)]) /\
  (~ due -> List.filter is_favorite (log r) = []) /\
  (current_song_favorited (self (post r)) = true
   <-> due /\ exists u, add_favorite (world s1) (t_id t) = Reply u) /\
  (tracks_in_hand (self (post r)) = tracks_in_hand (self s1)
   /\ auto_favorite (self (post r)) = true
   /\ sp (self (post r)) = sp (self s1)).
Proof.
  intros Hhead Htarget Hwaiting Hauto Hclear. cbn zeta.
  destruct (sync_logic_head_quiet s) as [_ Hquiet].
  rewrite Hhead in Hquiet. cbn in Hquiet.
  apply favorites_of_quiet in Hquiet.
  pose proof (playback_monitor_fires sp_track snapshot s1 t
                Htarget Hwaiting Hauto Hclear) as Hmon.
  cbn zeta in Hmon.
  unfold sync_logic, def. rewrite bind_unfold, Hhead. cbn [fst snd].
  destruct (playback_monitor sp_track snapshot s1) as [o s2 l2].
  cbn [post log] in Hmon.
  assert (Hdue :
            playing (vlc (world s2)) = true /\ duration (vlc (world s2)) <> 0
            /\ (below_090 < inject_Z (time (vlc (world s2)))
                            / inject_Z (duration (vlc (world s2))))%Q
            <-> playing (vlc (world s2)) = true
                /\ duration (vlc (world s2)) <> 0
                /\ ratio_reached (time (vlc (world s2)))
                     (duration (vlc (world s2))) = true).
  { split; intros (Hplaying & Hnz & Hratio); repeat split; auto;
      now apply ratio_reached_spec. }
  destruct Hmon as (Hfires & Hsilent & Hflag & Hkeep).
  destruct o; cbn [post log out]; rewrite List.filter_app, Hquiet;
    cbn [app]; rewrite Hdue; auto.
Qed.

(** A tick whose favorite call is refused, or not issued, hands a clear
    flag to the next tick: if that one commits no track change and the
    favorite is due, the call is issued again. *)
Lemma refused_favorite_repeats (s s1 : state) (sp_track : SpTrack)
    (snapshot : Playback) (calls : list call) (t : TidalTrack) (e : exn) :
  sync_logic_head s = Run (Ok (sp_track, snapshot)) s1 calls ->
  current_tidal_track (self s1) = Some t ->
  waiting_for_user_selection (self s1) = false ->
  auto_favorite (self s1) = true ->
  current_song_favorited (self s1) = false ->
  add_favorite (world s1) (t_id t) = Failure e ->
  let r := sync_logic (R := unit) s in
  current_song_favorited (self (post r)) = false /\
  forall w' s1' sp_track' snapshot' calls',
    let s' := State (self (post r)) w' in
    commits_switch s' = false ->
    sync_logic_head s' = Run (Ok (sp_track', snapshot')) s1' calls' ->
    let r' := sync_logic (R := unit) s' in
    let p' := vlc (world (post r')) in
    playing p' = true -> duration p' <> 0 ->
    (below_090 < inject_Z (time p') / inject_Z (duration p'))%Q ->
    List.filter is_favorite (log r') = [TidalAddFavorite (t_id t)].
Proof.
  intros Hhead Htarget Hwaiting Hauto Hclear Hrefused r.
  destruct (sync_logic_fires s s1 sp_track snapshot calls t
              Hhead Htarget Hwaiting Hauto Hclear)
    as (_ & _ & Hflag & Hhand & Hauto' & _).
  fold r in Hflag, Hhand, Hauto'.
  assert (Hclear' : current_song_favorited (self (post r)) = false).
  { destruct (current_song_favorited (self (post r))); [|reflexivity].
    destruct (proj1 Hflag eq_refl) as (_ & u & Hu). congruence. }
  split; [exact Hclear'|].
  intros w' s1' sp_track' snapshot' calls' s' Hsteady Hhead' r' p'
    Hplaying Hnz Hratio.
  destruct (sync_logic_head_steady s' Hsteady) as [Hflag' _].
  destruct (sync_logic_head_steady_calls s' Hsteady) as [Hhand' _].
  pose proof (sync_logic_head_keeps_auto_favorite s') as Hauto''.
  rewrite Hhead' in Hflag', Hhand', Hauto''.
  cbn [post self] in Hflag', Hhand', Hauto''.
  subst s'. cbn [self] in Hflag', Hhand', Hauto''.
  rewrite Hhand in Hhand'. unfold tracks_in_hand in Hhand'.
  rewrite Htarget, Hwaiting in Hhand'.
  injection Hhand' as _ Htarget' Hwaiting'.
  destruct (sync_logic_fires (State (self (post r)) w') s1'
              sp_track' snapshot' calls' t Hhead' Htarget' Hwaiting')
    as (Hfires & _); [congruence | congruence |].
  apply Hfires. auto.
Qed.

(** C8 (amended): a favorite call is issued only on a tick with
    auto-favorite enabled on which, at the favorite check, the player is
    playing and elapsed/duration, as Python rounds it, is at least 0.90
    (for a duration of at most 2^51 ms: elapsed/duration is at least
    9/10).  An accepted call sets the flag and a set flag silences the
    call, so over any run of the loop in which no tick commits a track
    change at most one tick has an accepted favorite call, and none
    when the flag is already set.  A tick that commits a track change
    runs as if the flag were clear.  On every tick that reaches the
    playback monitor with a target track active, no manual match
    awaited, auto-favorite enabled and the flag clear, the favorite
    call is issued exactly when the player is playing with the ratio
    reached, once and for the id of the current target track, and the
    flag is set exactly when that call is accepted.  A refused call
    leaves the flag clear, and the next tick that commits no track
    change and on which the favorite is due issues the call again. *)
Theorem auto_favorite_once :
  (forall s id,
      let r := sync_logic (R := unit) s in
      let p := vlc (world (post r)) in
      In (TidalAddFavorite id) (log r) ->
      auto_favorite (self s) = true /\ playing p = true /\ duration p <> 0
      /\ (below_090 < inject_Z (time p) / inject_Z (duration p))%Q
      /\ (Z.abs (duration p) <= 2 ^ 51 ->
          (9 # 10 <= inject_Z (time p) / inject_Z (duration p))%Q)) /\
  (forall me schedule,
      let ticks := snd (while_running me schedule) in
      Forall (fun tick => commits_switch (fst tick) = false) ticks ->
      (length (List.filter tick_marks ticks) <= 1)%nat
      /\ (current_song_favorited me = true ->
          List.filter tick_marks ticks = [])) /\
  (forall s,
      commits_switch s = true ->
      sync_logic (R := unit)
        (State (set_current_song_favorited true (self s)) (world s))
      = sync_logic (R := unit)
          (State (set_current_song_favorited false (self s)) (world s))) /\
  (forall s s1 sp_track snapshot calls t,
      sync_logic_head s = Run (Ok (sp_track, snapshot)) s1 calls ->
      current_tidal_track (self s1) = Some t ->
      waiting_for_user_selection (self s1) = false ->
      auto_favorite (self s1) = true ->
      current_song_favorited (self s1) = false ->
      let r := sync_logic (R := unit) s in
      let p := vlc (world (post r)) in
      let due :=
        playing p = true /\ duration p <> 0
        /\ (below_090 < inject_Z (time p) / inject_Z (duration p))%Q in
      (due ->
       List.filter is_favorite (log r) = [TidalAddFavorite (t_id t)]) /\
      (~ due -> List.filter is_favorite (log r) = []) /\
      (current_song_favorited (self (post r)) = true
       <-> due /\ exists u, add_favorite (world s1) (t_id t) = Reply u)) /\
  (forall s s1 sp_track snapshot calls t e,
      sync_logic_head s = Run (Ok (sp_track, snapshot)) s1 calls ->
      current_tidal_track (self s1) = Some t ->
      waiting_for_user_selection (self s1) = false ->
      auto_favorite (self s1) = true ->
      current_song_favorited (self s1) = false ->
      add_favorite (world s1) (t_id t) = Failure e ->
      let r := sync_logic (R := unit) s in
      current_song_favorited (self (post r)) = false /\
      forall w' s1' sp_track' snapshot' calls',
        let s' := State (self (post r)) w' in
        commits_switch s' = false ->
        sync_logic_head s' = Run (Ok (sp_track', snapshot')) s1' calls' ->
        let r' := sync_logic (R := unit) s' in
        let p' := vlc (world (post r')) in
        playing p' = true -> duration p' <> 0 ->
        (below_090 < inject_Z (time p') / inject_Z (duration p'))%Q ->
        List.filter is_favorite (log r') = [TidalAddFavorite (t_id t)]).
Proof.
  split; [|split; [|split; [|split]]].
  - intros s id r p Hin.
    destruct (sync_logic_favorite s) as [Hcall _].
    destruct (Hcall id Hin) as (Hauto & Hplaying & Hnz & Hratio).
    repeat split; auto.
    + now apply ratio_reached_spec.
    + intros Hbound. now apply ratio_reached_090.
  - intros me schedule ticks Hsteady.
    destruct (steady_run_marks_once schedule me Hsteady) as [Hset Honce].
    split; [exact Honce | exact Hset].
  - exact switch_resets_favorited.
  - intros s s1 sp_track snapshot calls t Hhead Htarget Hwaiting Hauto Hclear.
    destruct (sync_logic_fires s s1 sp_track snapshot calls t
                Hhead Htarget Hwaiting Hauto Hclear)
      as (Hfires & Hsilent & Hflag & _).
    cbn zeta. auto.
  - exact refused_favorite_repeats.
Qed.

(** * Further properties of the code *)

(** ** The search query *)

Lemma append_nil_l (s : string) : "" +:+ s = s.
Proof. reflexivity. Qed.

Lemma append_cons (a : ascii) (p s : string) :
  String a p +:+ s = String a (p +:+ s).
Proof. reflexivity. Qed.

Ltac unfold_append := rewrite ?append_nil_l, ?append_cons in *.

Lemma split_first_stops (c : ascii) (p q : string) :
  (forall a, In a (list_ascii_of_string p) -> a <> c) ->
  split_first c (p +:+ String c q) = p.
Proof.
  induction p as [|a p IH]; intros Hfree; unfold_append; cbn.
  - now rewrite Ascii.eqb_refl.
  - destruct (Ascii.eqb_spec a c) as [->|Hne].
    + exfalso. apply (Hfree c); [now left | reflexivity].
    + f_equal. apply IH. intros b Hb. apply Hfree. now right.
Qed.

Lemma split_first_absent (c : ascii) (p : string) :
  (forall a, In a (list_ascii_of_string p) -> a <> c) ->
  split_first c p = p.
Proof.
  induction p as [|a p IH]; intros Hfree; cbn; [reflexivity|].
  destruct (Ascii.eqb_spec a c) as [->|Hne].
  - exfalso. apply (Hfree c); [now left | reflexivity].
  - f_equal. apply IH. intros b Hb. apply Hfree. now right.
Qed.

Lemma lstrip_head (s : string) (c : ascii) (rest : string) :
  lstrip s = String c rest -> is_space c = false.
Proof.
  induction s as [|a s IH]; cbn [lstrip]; [discriminate|].
  destruct (is_space a) eqn:Ha; [exact IH|].
  intros Heq. injection Heq as -> _. exact Ha.
Qed.

Lemma rstrip_head (s : string) (c : ascii) (rest : string) :
  rstrip s = String c rest -> exists tail, s = String c tail.
Proof.
  destruct s as [|a s]; cbn [rstrip]; [discriminate|].
  destruct (rstrip s); [destruct (is_space a)|];
    intros Heq; try discriminate; injection Heq as -> _; eauto.
Qed.

Lemma rstrip_last (s pre : string) (c : ascii) :
  rstrip s = pre +:+ String c "" -> is_space c = false.
Proof.
  revert pre. induction s as [|a s IH]; intros pre; cbn [rstrip].
  - destruct pre; discriminate.
  - destruct (rstrip s) as [|b kept] eqn:Hkept.
    + destruct (is_space a) eqn:Ha.
      * destruct pre; discriminate.
      * destruct pre as [|p0 pre]; unfold_append; intros Heq.
        -- injection Heq as ->. exact Ha.
        -- injection Heq as _ Heq. destruct pre; discriminate.
    + destruct pre as [|p0 pre]; unfold_append; intros Heq; [discriminate|].
      injection Heq as _ Heq. now apply (IH pre).
Qed.

(** X1: the query sent to the catalogue is the cleaned title, a space
    and the artist.  The cleaned title is what precedes the first "(" or
    "-" of the title (the whole title when it has neither), without the
    white space around it: it never begins or ends with a space. *)
Theorem search_query_clean (title artist : string) :
  exists clean,
    search_query title artist = clean +:+ " " +:+ artist /\
    (forall c rest, clean = String c rest -> is_space c = false) /\
    (forall pre c, clean = pre +:+ String c "" -> is_space c = false) /\
    (forall p sep q,
        title = p +:+ String sep q ->
        sep = "("%char \/ sep = "-"%char ->
        (forall a, In a (list_ascii_of_string p) ->
                   a <> "("%char /\ a <> "-"%char) ->
        clean = strip p) /\
    ((forall a, In a (list_ascii_of_string title) ->
                a <> "("%char /\ a <> "-"%char) ->
     clean = strip title).
Proof.
  exists (strip (split_first "-" (split_first "(" title))).
  split; [reflexivity|]. split; [|split; [|split]].
  - intros c rest Hclean. unfold strip in Hclean.
    destruct (rstrip_head _ _ _ Hclean) as [tail Htail].
    now apply (lstrip_head _ _ _ Htail).
  - intros pre c Hclean. unfold strip in Hclean.
    now apply (rstrip_last _ _ _ Hclean).
  - intros p sep q -> [->| ->] Hfree.
    + rewrite (split_first_stops "(" p q)
        by (intros a Ha; apply (Hfree a Ha)).
      rewrite (split_first_absent "-" p)
        by (intros a Ha; apply (Hfree a Ha)).
      reflexivity.
    + assert (Hparen : split_first "(" (p +:+ String "-" q)
                       = p +:+ String "-" (split_first "(" q)).
      { clear - Hfree.
        induction p as [|a p IH]; unfold_append; cbn; [reflexivity|].
        destruct (Ascii.eqb_spec a "(") as [->|Hne].
        - destruct (Hfree "("%char) as [Hparen _]; [now left|].
          now destruct Hparen.
        - f_equal. apply IH. intros b Hb. apply Hfree. now right. }
      rewrite Hparen.
      rewrite (split_first_stops "-" p)
        by (intros a Ha; apply (Hfree a Ha)).
      reflexivity.
  - intros Hfree.
    rewrite (split_first_absent "(" title)
      by (intros a Ha; apply (Hfree a Ha)).
    rewrite (split_first_absent "-" title)
      by (intros a Ha; apply (Hfree a Ha)).
    reflexivity.
Qed.

(** ** The quality names *)

(** X2: the list of qualities to try is never empty and tries no
    quality twice; whenever [PREFERRED_QUALITY] is set (which [login]
    requires) every entry is a quality that the installed library has;
    and when the library has one of the three lossless names, the
    first quality tried is [PREFERRED_QUALITY]. *)
Theorem qualities_to_try_sound :
  qualities_to_try <> [] /\
  NoDup qualities_to_try /\
  (PREFERRED_QUALITY <> None ->
   Forall (fun q => exists attr, q = Some attr /\ hasattr attr = true)
     qualities_to_try) /\
  (hasattr "hi_res_lossless" = true \/ hasattr "high_lossless" = true
   \/ hasattr "lossless" = true ->
   head qualities_to_try = Some PREFERRED_QUALITY).
Proof.
  unfold qualities_to_try, PREFERRED_QUALITY, get_tidal_quality,
    possible_attrs. cbn.
  destruct (hasattr "hi_res_lossless") eqn:H1,
    (hasattr "high_lossless") eqn:H2, (hasattr "lossless") eqn:H3,
    (hasattr "LOSSLESS") eqn:H4, (hasattr "high") eqn:H5,
    (hasattr "HIGH") eqn:H6, (hasattr "low") eqn:H7; cbn;
    (split; [discriminate|]);
    (split;
     [ repeat (apply NoDup_cons_2;
               [rewrite ?elem_of_cons, elem_of_nil; intuition discriminate|]);
       apply NoDup_nil_2
     | split;
       [ intros Hset; try congruence; repeat constructor; eauto
       | intros [Hany|[Hany|Hany]]; try discriminate Hany; reflexivity ] ]).
Qed.

(** ** Credentials *)

(** X3: [get_credentials] never mixes its two sources: it returns the
    keyring's client id and secret exactly when both are stored and
    non-empty, and otherwise both values of the environment. *)
Theorem get_credentials_sources (env : gmap string string) (k : Keyring) :
  unreadable k = false ->
  let stored_id := entries k !! "SPOTIFY_CLIENT_ID" in
  let stored_secret := entries k !! "SPOTIFY_CLIENT_SECRET" in
  (truthy stored_id = true /\ truthy stored_secret = true ->
   get_credentials env k = Got (stored_id, stored_secret)) /\
  (truthy stored_id = false \/ truthy stored_secret = false ->
   get_credentials env k
   = Got (env !! "SPOTIFY_CLIENT_ID", env !! "SPOTIFY_CLIENT_SECRET")).
Proof.
  intros Hread. unfold get_credentials, get_password. rewrite Hread. cbn.
  split.
  - intros [-> ->]. reflexivity.
  - intros [-> | ->]; cbn; [reflexivity|].
    now rewrite orb_true_r.
Qed.

(** X4: a migration whose two writes are accepted stores the client id
    and secret of the environment, after which [get_credentials] returns
    them whatever the environment then holds. *)
Theorem migration_takes_over (env : gmap string string) (k : Keyring)
    (id secret : string) :
  unreadable k = false ->
  env !! "SPOTIFY_CLIENT_ID" = Some id ->
  env !! "SPOTIFY_CLIENT_SECRET" = Some secret ->
  id <> "" -> secret <> "" -> id <> placeholder_id ->
  truthy (entries k !! "SPOTIFY_CLIENT_ID") = false ->
  refuses k "SPOTIFY_CLIENT_ID" = false ->
  refuses k "SPOTIFY_CLIENT_SECRET" = false ->
  exists k',
    migrate_credentials_to_keyring env k = Got k' /\
    forall env', get_credentials env' k' = Got (Some id, Some secret).
Proof.
  intros Hread Hid Hsecret Hid_set Hsecret_set Hreal Hnone Hw1 Hw2.
  unfold migrate_credentials_to_keyring, get_password, set_password.
  rewrite Hid, Hsecret, Hread, Hnone. cbn.
  destruct (String.eqb_spec id "") as [|_]; [contradiction|].
  destruct (String.eqb_spec secret "") as [|_]; [contradiction|].
  destruct (String.eqb_spec id placeholder_id) as [|_]; [contradiction|].
  cbn. rewrite Hw1. cbn. rewrite Hw2.
  eexists. split; [reflexivity|].
  intros env'. unfold get_credentials, get_password. cbn. rewrite ?Hread.
  rewrite lookup_insert_ne by discriminate.
  rewrite !lookup_insert_eq. cbn.
  destruct (String.eqb_spec id "") as [|_]; [contradiction|].
  destruct (String.eqb_spec secret "") as [|_]; [contradiction|].
  reflexivity.
Qed.

(** X5: the migration never touches a keyring that already holds a
    client id, and migrating twice is migrating once. *)
Theorem migration_idempotent (env : gmap string string) (k : Keyring) :
  (truthy (entries k !! "SPOTIFY_CLIENT_ID") = true ->
   unreadable k = false ->
   migrate_credentials_to_keyring env k = Got k) /\
  (forall k1, migrate_credentials_to_keyring env k = Got k1 ->
              migrate_credentials_to_keyring env k1 = Got k1).
Proof.
  split.
  - intros Hset Hread.
    unfold migrate_credentials_to_keyring, get_password.
    rewrite Hread, Hset. cbn.
    repeat (break_match; cbn); reflexivity.
  - intros k1.
    unfold migrate_credentials_to_keyring, get_password, set_password.
    destruct (env !! "SPOTIFY_CLIENT_ID") as [id|] eqn:Hid;
      [|intros [= <-]; reflexivity].
    destruct (env !! "SPOTIFY_CLIENT_SECRET") as [secret|] eqn:Hsecret;
      [|intros [= <-]; reflexivity].
    destruct (truthy (Some id) && truthy (Some secret)
              && negb (String.eqb id placeholder_id)) eqn:Hgo;
      [|intros [= <-]; reflexivity].
    destruct (unreadable k) eqn:Hread; [discriminate|].
    apply andb_true_iff in Hgo. destruct Hgo as [Hgo Hreal].
    apply andb_true_iff in Hgo. destruct Hgo as [Hgo _].
    cbn in Hgo. cbn.
    destruct (truthy (entries k !! "SPOTIFY_CLIENT_ID")) eqn:Hstored;
      [|cbn; destruct (refuses k "SPOTIFY_CLIENT_ID") eqn:Hw1;
        [|cbn; destruct (refuses k "SPOTIFY_CLIENT_SECRET") eqn:Hw2]];
      cbn; intros Heq; injection Heq as Heq; subst k1; cbn;
      repeat (first [ rewrite Hread | rewrite Hstored | rewrite Hw1
                    | rewrite Hw2 | rewrite Hgo | rewrite Hreal
                    | rewrite lookup_insert_eq
                    | rewrite lookup_insert_ne by discriminate ]; cbn);
      reflexivity.
Qed.

(** X6: when the keyring accepts the client id and refuses the secret,
    the migration leaves the id alone in the keyring; from then on no
    migration stores the secret, however the keyring answers writes,
    and unless a secret was already stored [get_credentials] keeps
    answering from the environment. *)
Theorem partial_migration_not_repaired (env : gmap string string)
    (k : Keyring) (id secret : string) :
  unreadable k = false ->
  env !! "SPOTIFY_CLIENT_ID" = Some id ->
  env !! "SPOTIFY_CLIENT_SECRET" = Some secret ->
  id <> "" -> secret <> "" -> id <> placeholder_id ->
  truthy (entries k !! "SPOTIFY_CLIENT_ID") = false ->
  refuses k "SPOTIFY_CLIENT_ID" = false ->
  refuses k "SPOTIFY_CLIENT_SECRET" = true ->
  exists k1,
    migrate_credentials_to_keyring env k = Got k1 /\
    entries k1 = <["SPOTIFY_CLIENT_ID" := id]> (entries k) /\
    (forall env' accepts,
        let later := {| entries := entries k1; unreadable := false;
                        refuses := accepts |} in
        migrate_credentials_to_keyring env' later = Got later /\
        (truthy (entries k !! "SPOTIFY_CLIENT_SECRET") = false ->
         get_credentials env' later
         = Got (env' !! "SPOTIFY_CLIENT_ID",
                env' !! "SPOTIFY_CLIENT_SECRET"))).
Proof.
  intros Hread Hid Hsecret Hid_set Hsecret_set Hreal Hnone Hw1 Hw2.
  unfold migrate_credentials_to_keyring at 1.
  unfold get_password, set_password.
  rewrite Hid, Hsecret, Hread, Hnone. cbn.
  destruct (String.eqb_spec id "") as [|_]; [contradiction|].
  destruct (String.eqb_spec secret "") as [|_]; [contradiction|].
  destruct (String.eqb_spec id placeholder_id) as [|_]; [contradiction|].
  cbn. rewrite Hw1. cbn. rewrite Hw2.
  eexists. split; [reflexivity|]. split; [reflexivity|].
  intros env' accepts. cbn [entries]. split.
  - unfold migrate_credentials_to_keyring, get_password. cbn.
    rewrite lookup_insert_eq. cbn.
    destruct (String.eqb_spec id "") as [|_]; [contradiction|].
    repeat (break_match; cbn); reflexivity.
  - intros Hno_secret. unfold get_credentials. cbn.
    rewrite lookup_insert_eq.
    rewrite lookup_insert_ne by discriminate.
    rewrite Hno_secret. cbn. now rewrite orb_true_r.
Qed.

(** ** Settings *)


(** ** What a piece of code leaves alone in the world *)

Section WorldFrame.

Context {X : Type}.
Variable part : World -> X.

Definition spares {R A} (m : M R A) : Prop :=
  forall s, part (world (post (m s))) = part (world s).

Lemma spares_ret {R A} (a : A) : spares (ret (R := R) a).
Proof. intros s; reflexivity. Qed.

Lemma spares_return {R A} (v : R) : spares (return_ (A := A) v).
Proof. intros s; reflexivity. Qed.

Lemma spares_raise {R A} (e : exn) : spares (raise (R := R) (A := A) e).
Proof. intros s; reflexivity. Qed.

Lemma spares_get_self {R} : spares (get_self (R := R)).
Proof. intros s; reflexivity. Qed.

Lemma spares_get_world {R} : spares (get_world (R := R)).
Proof. intros s; reflexivity. Qed.

Lemma spares_assign {R} (f : SyncManager -> SyncManager) :
  spares (assign (R := R) f).
Proof. intros s; reflexivity. Qed.

Lemma spares_emit {R} (c : call) : spares (emit (R := R) c).
Proof. intros s; reflexivity. Qed.

Lemma spares_affect {R} (f : World -> World) :
  (forall w, part (f w) = part w) -> spares (affect (R := R) f).
Proof. intros Hf s; cbn; apply Hf. Qed.

Lemma spares_answer {R A} (r : reply A) : spares (answer (R := R) r).
Proof. destruct r; [apply spares_ret | apply spares_raise]. Qed.

Lemma spares_bind {R A B} (m : M R A) (f : A -> M R B) :
  spares m -> (forall a, spares (f a)) -> spares (bind m f).
Proof.
  intros Hm Hf s. unfold bind. specialize (Hm s).
  destruct (m s) as [[a|v|e] s1 l1]; cbn in *; auto.
  specialize (Hf a s1). destruct (f a s1) as [o s2 l2]; cbn in *.
  congruence.
Qed.

Lemma spares_try_except {R A} (body : M R A) (handler : exn -> M R A) :
  spares body -> (forall e, spares (handler e)) ->
  spares (try_except body handler).
Proof.
  intros Hm Hf s. unfold try_except. specialize (Hm s).
  destruct (body s) as [[a|v|e] s1 l1]; cbn in *; auto.
  specialize (Hf e s1). destruct (handler e s1) as [o s2 l2]; cbn in *.
  congruence.
Qed.

Lemma spares_def {R R'} (m : M R R) : spares m -> spares (def (R' := R') m).
Proof.
  intros Hm s. unfold def. specialize (Hm s).
  destruct (m s) as [[a|v|e] s1 l1]; cbn in *; auto.
Qed.

End WorldFrame.

Ltac spares_step affect_tac :=
  first
    [ apply spares_ret | apply spares_return | apply spares_raise
    | apply spares_get_self | apply spares_get_world | apply spares_assign
    | apply spares_emit | apply spares_answer
    | apply spares_affect; intros ?; affect_tac
    | apply spares_def
    | apply spares_bind; [|intros ?]
    | apply spares_try_except; [|intros ?]
    | match goal with
      | |- spares _ (match ?x with _ => _ end) => destruct x
      | |- spares _ (let _ := _ in _) => cbv zeta
      end ].

Ltac same_part := reflexivity.
Ltac other_call := intros; discriminate.

Ltac spares_with affect_tac :=
  autounfold with collaborators; repeat spares_step affect_tac.

(** ** The mapping file *)

Lemma search_tidal_match_spares_file {R} (sp_track : SpTrack) :
  spares mapping_file (search_tidal_match (R := R) sp_track).
Proof.
  unfold search_tidal_match, check_mappings, search_catalog,
    get_tidal_track_by_id.
  spares_with same_part.
Qed.

Lemma try_qualities_spares_file {R} (t : TidalTrack)
    (qualities : list quality) :
  forall url used,
    spares mapping_file (try_qualities (R := R) t qualities url used).
Proof.
  induction qualities as [|q rest IH]; intros url used; cbn [try_qualities].
  - apply spares_ret.
  - spares_with same_part; apply IH.
Qed.

Lemma attempt_play_tidal_spares_file {R} (t : TidalTrack)
    (sp_is_playing : bool) :
  spares mapping_file (attempt_play_tidal (R := R) t sp_is_playing).
Proof.
  unfold attempt_play_tidal, check_and_refresh_session.
  repeat first
    [ apply try_qualities_spares_file
    | spares_step same_part
    | progress autounfold with collaborators ].
Qed.

(** ** The calls a piece of code can make

    The same traversal as above, with one premise for each kind of call
    and each assignment met, so that every part of the engine comes
    with the exact list of what it may log and assign. *)

Section Alphabet.

Context {X : Type}.
Variable field : SyncManager -> X.
Variable allowed : call -> Prop.
Hypothesis may_snapshot : allowed SpCurrentPlayback.
Hypothesis may_volume : forall v, allowed (SpVolume v).
Hypothesis may_start : allowed SpStartPlayback.
Hypothesis may_seek : forall pos, allowed (SpSeekTrack pos).
Hypothesis may_check : allowed TidalCheckLogin.
Hypothesis may_fetch : forall id, allowed (TidalTrackById id).
Hypothesis may_search : forall q limit, allowed (TidalSearch q limit).
Hypothesis may_url : forall q id, allowed (TidalGetUrl q id).
Hypothesis may_play : forall url, allowed (VlcPlayUrl url).
Hypothesis may_stop : allowed VlcStop.
Hypothesis may_request : forall id, allowed (RequestManualMatch id).
Hypothesis may_pause : allowed VlcPause.
Hypothesis may_resume : allowed VlcResume.
Hypothesis may_favorite : forall id, allowed (TidalAddFavorite id).
Hypothesis may_hold : allowed SpPausePlayback.
Hypothesis may_skip : allowed SpNextTrack.
Hypothesis keeps_status : forall v me, field (set_status v me) = field me.
Hypothesis keeps_image :
  forall v me, field (set_current_image_url v me) = field me.
Hypothesis keeps_source :
  forall v me, field (set_current_spotify_track v me) = field me.
Hypothesis keeps_target :
  forall v me, field (set_current_tidal_track v me) = field me.
Hypothesis keeps_waiting :
  forall v me, field (set_waiting_for_user_selection v me) = field me.
Hypothesis keeps_favorited :
  forall v me, field (set_current_song_favorited v me) = field me.
Hypothesis keeps_hold :
  forall v me, field (set_is_paused_waiting v me) = field me.

Ltac may :=
  first [ apply may_snapshot | apply may_volume | apply may_start
        | apply may_seek | apply may_check | apply may_fetch
        | apply may_search | apply may_url | apply may_play | apply may_stop
        | apply may_request | apply may_pause | apply may_resume
        | apply may_favorite | apply may_hold | apply may_skip ].
Ltac keeps :=
  first [ apply keeps_status | apply keeps_image | apply keeps_source
        | apply keeps_target | apply keeps_waiting | apply keeps_favorited
        | apply keeps_hold ].

Lemma check_and_refresh_session_calls {R} :
  tame field allowed (check_and_refresh_session (R := R)).
Proof. unfold check_and_refresh_session. tame_with may keeps. Qed.

Lemma search_tidal_match_calls {R} (sp_track : SpTrack) :
  tame field allowed (search_tidal_match (R := R) sp_track).
Proof.
  unfold search_tidal_match, check_mappings, search_catalog,
    get_tidal_track_by_id.
  tame_with may keeps.
Qed.

Lemma try_qualities_calls {R} (t : TidalTrack) (qualities : list quality) :
  forall url used,
    tame field allowed (try_qualities (R := R) t qualities url used).
Proof.
  induction qualities as [|q rest IH]; intros url used; cbn [try_qualities].
  - apply tame_ret.
  - tame_with may keeps; apply IH.
Qed.

Lemma attempt_play_tidal_calls {R} (t : TidalTrack) (sp_is_playing : bool) :
  tame field allowed (attempt_play_tidal (R := R) t sp_is_playing).
Proof.
  unfold attempt_play_tidal.
  apply tame_def. apply tame_bind; [apply check_and_refresh_session_calls|].
  intros valid. apply tame_bind; [tame_with may keeps|].
  intros ?. apply tame_bind; [apply try_qualities_calls|].
  intros found. tame_with may keeps.
Qed.

Lemma sync_logic_head_calls : tame field allowed sync_logic_head.
Proof.
  unfold sync_logic_head, mute_spotify_logic, get_art, track_change.
  repeat first
    [ apply search_tidal_match_calls
    | apply attempt_play_tidal_calls
    | tame_step may keeps
    | progress autounfold with collaborators ].
Qed.

Lemma playback_monitor_calls (sp_track : SpTrack) (snapshot : Playback) :
  tame field allowed (playback_monitor sp_track snapshot).
Proof.
  unfold playback_monitor, pause_resume_sync, auto_favorite_check,
    end_of_track_handling.
  tame_with may keeps.
Qed.

Lemma sync_logic_calls {R} : tame field allowed (sync_logic (R := R)).
Proof.
  unfold sync_logic. apply tame_def. apply tame_bind.
  - apply sync_logic_head_calls.
  - intros found. apply playback_monitor_calls.
Qed.

End Alphabet.

(** X8: a tick never writes the mapping file: whatever the snapshot and
    whatever fails, the mappings are afterwards what they were and no
    mapping write is logged (only the manual override writes them). *)
Theorem tick_never_writes_mappings (s : state) :
  let r := sync_logic (R := unit) s in
  mappings (world (post r)) = mappings (world s) /\
  Forall (fun c => forall id tidal_id, c <> SaveMapping id tidal_id) (log r).
Proof.
  cbn zeta. split.
  - assert (Hfile : spares mapping_file (sync_logic (R := unit))).
    { unfold sync_logic, sync_logic_head, mute_spotify_logic, get_art,
        track_change, playback_monitor, pause_resume_sync,
        auto_favorite_check, end_of_track_handling.
      repeat first
        [ apply search_tidal_match_spares_file
        | apply attempt_play_tidal_spares_file
        | spares_step same_part
        | progress autounfold with collaborators ]. }
    specialize (Hfile s). unfold mapping_file in Hfile. congruence.
  - apply (sync_logic_calls running
             (fun c => forall id tidal_id, c <> SaveMapping id tidal_id));
      intros; discriminate || reflexivity.
Qed.

(** ** Ticks that change no track *)

(** X9: a tick that commits no track change (the snapshot fails, names
    no item, names the held track, or is held back by the anti-flicker
    test) resolves nothing: it makes no mapping fetch, search, session
    check or stream-URL request, never starts or stops the player, does
    not restart the source, and leaves the held source track, the
    target track and the waiting flag as they were. *)
Theorem steady_tick_resolves_nothing (s : state) :
  commits_switch s = false ->
  let r := sync_logic (R := unit) s in
  Forall (fun c => is_resolution c = false) (log r) /\
  current_spotify_track (self (post r)) = current_spotify_track (self s) /\
  current_tidal_track (self (post r)) = current_tidal_track (self s) /\
  waiting_for_user_selection (self (post r))
  = waiting_for_user_selection (self s).
Proof.
  intros Hsteady r. subst r.
  destruct (sync_logic_head_steady_calls s Hsteady) as [Hhand Hcalls].
  unfold sync_logic, def. rewrite bind_unfold.
  destruct (sync_logic_head s) as [[[sp_track snapshot]|v|e] s1 l1];
    cbn in Hhand, Hcalls; cbn [fst snd].
  - destruct (playback_monitor_calls tracks_in_hand
                (fun c => is_resolution c = false)
                ltac:(reflexivity) ltac:(reflexivity) ltac:(reflexivity)
                ltac:(reflexivity) ltac:(reflexivity)
                ltac:(reflexivity) ltac:(reflexivity)
                sp_track snapshot s1) as [Hkeep Hmon].
    destruct (playback_monitor sp_track snapshot s1) as [o s2 l2].
    cbn in Hkeep, Hmon.
    assert (Hall : Forall (fun c => is_resolution c = false) (l1 ++ l2))
      by now apply Forall_app.
    rewrite Hhand in Hkeep. unfold tracks_in_hand in Hkeep.
    injection Hkeep as Hsource Htarget Hwaiting.
    destruct o; cbn; auto.
  - unfold tracks_in_hand in Hhand.
    injection Hhand as Hsource Htarget Hwaiting. cbn. auto.
  - unfold tracks_in_hand in Hhand.
    injection Hhand as Hsource Htarget Hwaiting. cbn. auto.
Qed.

(** X10: when the snapshot cannot be fetched, or reports no playback or
    no item, the tick only sets the status, to "Spotify Error" or to
    "Spotify Idle": nothing else of the manager changes, the
    collaborators are left as they were, and the only call is the
    snapshot itself, so the player gets no command and goes on as it
    was. *)
Theorem source_unavailable_tick (s : state) :
  let r := sync_logic (R := unit) s in
  let says text calls :=
    r = Run (Ok tt) (State (set_status text (self s)) (world s)) calls in
  (sp (self s) = None -> says "Spotify Error" []) /\
  (sp (self s) <> None ->
   (forall e, sp_playback (world s) = Failure e ->
              says "Spotify Error" [SpCurrentPlayback]) /\
   (sp_playback (world s) = Reply None ->
    says "Spotify Idle" [SpCurrentPlayback]) /\
   (forall snapshot,
       sp_playback (world s) = Reply (Some snapshot) ->
       item snapshot = None ->
       says "Spotify Idle" [SpCurrentPlayback])).
Proof.
  cbn zeta. open_state s. split; [|split; [|split]].
  - intros ->. run_py. reflexivity.
  - intros e ->. destruct sp0; [|contradiction]. run_py. reflexivity.
  - intros ->. destruct sp0; [|contradiction]. run_py. reflexivity.
  - intros snapshot -> Hitem. destruct sp0; [|contradiction].
    run_py. rewrite Hitem. reflexivity.
Qed.

(** ** Ticks that change the track *)

(** The matcher reads the collaborators only: its answer and its calls
    do not depend on the manager, and it changes nothing. *)
Lemma search_tidal_match_reads_world {R} (sp_track : SpTrack)
    (me me0 : SyncManager) (w : World) :
  search_tidal_match (R := R) sp_track (State me w)
  = Run (out (search_tidal_match (R := R) sp_track (State me0 w)))
      (State me w)
      (log (search_tidal_match (R := R) sp_track (State me0 w))).
Proof.
  unfold search_tidal_match, check_mappings, search_catalog,
    get_tidal_track_by_id.
  destruct w. run_py.
  repeat (break_match; cbn); reflexivity.
Qed.

(** X11: on a tick that commits a track change for which the matcher
    finds nothing, the new source track is held, the target track is
    cleared, the waiting flag is set and the status says so; the player
    is stopped, so waiting for a manual match implies a player that is
    not playing; the playback monitor is skipped.  The calls are
    exactly the snapshot, the mute, the matcher's, the stop and the
    manual-match request when a callback is registered. *)
Theorem unmatched_track_waits (s : state) (snapshot : Playback)
    (sp_track : SpTrack) :
  commits_switch s = true ->
  sp_playback (world s) = Reply (Some snapshot) ->
  item snapshot = Some sp_track ->
  out (search_tidal_match (R := unit) sp_track s) = Ok None ->
  let r := sync_logic (R := unit) s in
  status (self (post r)) = "Match Not Found - Waiting for User" /\
  current_spotify_track (self (post r)) = Some sp_track /\
  current_tidal_track (self (post r)) = None /\
  waiting_for_user_selection (self (post r)) = true /\
  playing (vlc (world (post r))) = false /\
  log r = SpCurrentPlayback :: mute_calls (self s) snapshot
          ++ log (search_tidal_match (R := unit) sp_track s)
          ++ VlcStop :: request_calls (self s) sp_track.
Proof.
  intros Hswitch Hsnap Hitem Hsearch r.
  assert (Hr : r = sync_logic (R := unit) s) by reflexivity.
  clearbody r.
  destruct snapshot as [it live progress volume]. cbn in Hitem. subst it.
  destruct s as [me0 w].
  pose proof (fun me => search_tidal_match_reads_world (R := unit)
                          sp_track me me0 w) as Hframe.
  destruct (search_tidal_match (R := unit) sp_track (State me0 w))
    as [o s' calls].
  cbn in Hsearch, Hframe |- *. subst o.
  revert Hr Hswitch. unfold commits_switch, mute_calls, request_calls.
  destruct me0, w. cbn in Hsnap |- *. subst.
  run_py.
  repeat (first [ rewrite Hframe | break_match ]; cbn;
          try match goal with
              | |- _ -> false = true -> _ => intros ? Hno; discriminate Hno
              end);
    intros -> _; cbn; rewrite ?app_nil_r, <- ?app_assoc; cbn; auto 10.
Qed.

(** The monitor after the head: it keeps what the head settled and adds
    calls of its own kind only. *)
Lemma sync_logic_after_head (allowed : call -> Prop) (s : state) :
  allowed VlcPause -> allowed VlcResume ->
  (forall id, allowed (TidalAddFavorite id)) ->
  allowed SpPausePlayback -> allowed SpNextTrack ->
  let r := sync_logic (R := unit) s in
  let h := sync_logic_head s in
  settled (self (post r)) = settled (self (post h))
  /\ (Forall allowed (log h) -> Forall allowed (log r)).
Proof.
  intros Hpause Hresume Hfavorite Hhold Hskip. cbn zeta.
  unfold sync_logic, def. rewrite bind_unfold.
  destruct (sync_logic_head s) as [[[sp_track snapshot]|v|e] s1 l1];
    cbn [fst snd post log]; auto.
  destruct (playback_monitor_calls settled allowed
              Hpause Hresume Hfavorite Hhold Hskip
              ltac:(reflexivity) ltac:(reflexivity)
              sp_track snapshot s1) as [Hkeep Hmon].
  destruct (playback_monitor sp_track snapshot s1) as [o s2 l2].
  cbn in Hkeep, Hmon.
  destruct o; cbn; (split; [exact Hkeep|]);
    intros Hhead; now apply Forall_app.
Qed.

Lemma sync_logic_head_expired (s : state) (snapshot : Playback)
    (sp_track : SpTrack) (t : TidalTrack) :
  commits_switch s = true ->
  sp_playback (world s) = Reply (Some snapshot) ->
  item snapshot = Some sp_track ->
  out (search_tidal_match (R := unit) sp_track s) = Ok (Some t) ->
  check_login (world s) (checks_made (world s)) = Reply false ->
  check_login (world s) (S (checks_made (world s))) = Reply false ->
  let h := sync_logic_head s in
  settled (self (post h))
  = ("Playback Error - Stopped", (Some sp_track, Some t, false))
  /\ Forall (fun c => is_stream_call c = false) (log h).
Proof.
  intros Hswitch Hsnap Hitem Hsearch Hfirst Hagain h.
  assert (Hh : h = sync_logic_head s) by reflexivity.
  clearbody h.
  destruct snapshot as [it live progress volume]. cbn in Hitem. subst it.
  destruct s as [me0 w].
  pose proof (fun me => search_tidal_match_reads_world (R := unit)
                          sp_track me me0 w) as Hframe.
  assert (Hcalls : Forall (fun c => is_stream_call c = false)
                     (log (search_tidal_match (R := unit) sp_track
                             (State me0 w)))).
  { apply (search_tidal_match_calls running
             (fun c => is_stream_call c = false));
      intros; reflexivity. }
  destruct (search_tidal_match (R := unit) sp_track (State me0 w))
    as [o s' calls].
  cbn in Hsearch, Hframe, Hcalls |- *. subst o.
  revert Hh Hswitch. unfold commits_switch.
  destruct me0, w. cbn in Hsnap, Hfirst, Hagain |- *. subst.
  autounfold with py.
  unfold attempt_play_tidal, check_and_refresh_session. run_py.
  repeat (first [ rewrite Hframe | rewrite Hfirst | rewrite Hagain
                | break_match ]; cbn;
          try match goal with
              | |- _ -> false = true -> _ => intros ? Hno; discriminate Hno
              end);
    intros -> _; cbn; (split; [reflexivity|]);
    repeat first [ apply Forall_app; split | apply Forall_cons; split
                 | apply Forall_nil | exact Hcalls | reflexivity ].
Qed.

(** X12: on a tick that commits a track change and finds a match while
    the target session is and stays invalid, the matched track becomes
    the current target all the same, the tick ends with the status
    "Playback Error - Stopped" (the "Session Expired" of the attempt is
    overwritten), no stream URL is requested and the player is neither
    started nor stopped. *)
Theorem expired_session_on_switch (s : state) (snapshot : Playback)
    (sp_track : SpTrack) (t : TidalTrack) :
  commits_switch s = true ->
  sp_playback (world s) = Reply (Some snapshot) ->
  item snapshot = Some sp_track ->
  out (search_tidal_match (R := unit) sp_track s) = Ok (Some t) ->
  check_login (world s) (checks_made (world s)) = Reply false ->
  check_login (world s) (S (checks_made (world s))) = Reply false ->
  let r := sync_logic (R := unit) s in
  status (self (post r)) = "Playback Error - Stopped" /\
  current_spotify_track (self (post r)) = Some sp_track /\
  current_tidal_track (self (post r)) = Some t /\
  waiting_for_user_selection (self (post r)) = false /\
  Forall (fun c => is_stream_call c = false) (log r).
Proof.
  intros Hswitch Hsnap Hitem Hsearch Hfirst Hagain r. subst r.
  destruct (sync_logic_head_expired s snapshot sp_track t
              Hswitch Hsnap Hitem Hsearch Hfirst Hagain) as [Hsettled Hcalls].
  destruct (sync_logic_after_head (fun c => is_stream_call c = false) s
              eq_refl eq_refl (fun _ => eq_refl) eq_refl eq_refl)
    as [Hkeep Hlog].
  cbn zeta in Hkeep, Hlog. rewrite Hsettled in Hkeep.
  unfold settled, tracks_in_hand in Hkeep.
  injection Hkeep as Hstatus Hsource Htarget Hwaiting.
  auto 10.
Qed.

(** ** Starting the playback *)

(** X13: once the session check has passed and a quality has yielded a
    stream URL, [attempt_play_tidal] hands the URL to the player and
    restarts the source at position 0 (starting it first when it was
    paused).  If the player takes the URL and Spotify accepts the
    restart, the result is [True], the status names the track and the
    quality (by the last dot-separated part, in upper case, of what the
    installed library prints for it), and the session is left at that
    quality.  If the player
    refuses the URL or Spotify rejects a restart command, the player is
    stopped, the result is [False] and the status is left as it was. *)
Theorem playback_start (t : TidalTrack) (sp_is_playing : bool) (s : state)
    (before : list quality) (q : quality) (after : list quality)
    (u : string) :
  sp (self s) = Some tt ->
  out (check_and_refresh_session (R := bool) s) = Ok true ->
  qualities_to_try = before ++ q :: after ->
  Forall (fun q' => resolves (world s) t q' = false) before ->
  get_url (world s) q t = Reply (Some u) ->
  u <> "" ->
  let w := world s in
  let checks := log (check_and_refresh_session (R := bool) s) in
  let r := attempt_play_tidal (R := unit) t sp_is_playing s in
  (forall p,
      vlc_play w u = Reply p ->
      Forall (fun c => sp_rejects w c = false) (restart_calls sp_is_playing) ->
      out r = Ok true /\
      status (self (post r))
      = "Playing: " +:+ t_name t +:+ " [" +:+ quality_label q +:+ "]" /\
      vlc (world (post r)) = p /\
      config_quality (world (post r)) = q /\
      log r = checks ++ url_requests t (before ++ [q])
              ++ VlcPlayUrl u :: restart_calls sp_is_playing) /\
  ((exists e, vlc_play w u = Failure e)
   \/ Exists (fun c => sp_rejects w c = true) (restart_calls sp_is_playing) ->
   out r = Ok false /\
   status (self (post r)) = status (self s) /\
   playing (vlc (world (post r))) = false /\
   last (log r) = Some VlcStop).
Proof.
  intros Hsp Hvalid Hsplit Hfail Hget Hu w checks r. subst w checks.
  assert (Htruthy : truthy (Some u) = true).
  { cbn. destruct (String.eqb_spec u ""); [contradiction | reflexivity]. }
  destruct (check_and_refresh_session_post (R := bool) s) as [Hself [n Hworld]].
  assert (Hr : r = attempt_play_tidal (R := unit) t sp_is_playing s)
    by reflexivity.
  clearbody r. unfold attempt_play_tidal in Hr.
  destruct (check_and_refresh_session (R := bool) s) as [o [me1 w1] l1]
    eqn:Hcheck.
  cbn in Hvalid, Hself, Hworld. subst o me1 w1. cbn [log].
  pose proof (try_qualities_first (R := bool) t before q after (Some u)
                (self s) (set_checks_made n (world s)) None "Unknown"
                Hfail Hget Htruthy) as Hrun.
  rewrite <- Hsplit in Hrun.
  unfold def, bind at 1 in Hr. rewrite Hcheck in Hr. cbn [negb] in Hr.
  unfold bind at 2 in Hr. unfold ret at 1 in Hr. cbn beta iota in Hr.
  unfold bind at 1 in Hr. rewrite Hrun in Hr.
  cbn [fst snd] in Hr. rewrite Htruthy in Hr.
  clear Hcheck Hrun Hfail Hget. revert Hr. destruct s as [me w]. destruct me, w. cbn in Hsp |- *. subst.
  unfold restart_calls. intros Hr. split.
  - intros p Hplay Haccept. revert Hr. run_py. rewrite Hplay. cbn.
    destruct sp_is_playing; cbn;
      repeat match goal with
        | H : Forall _ (_ :: _) |- _ => inversion H; subst; clear H
        end;
      repeat (match goal with
              | H : _ _ = false |- _ => rewrite H
              end; cbn);
      intros ->; cbn; rewrite ?app_nil_r, <- ?app_assoc; cbn; auto 10.
  - intros Hcrash. revert Hr. run_py.
    destruct sp_is_playing; cbn;
      repeat (break_match; cbn);
      intros ->; cbn;
      first
        [ repeat split; try reflexivity;
          rewrite ?app_nil_r, <- ?app_assoc;
          repeat rewrite last_app; cbn; reflexivity
        | exfalso; destruct Hcrash as [[? He]|Hrej]; try congruence;
          repeat match goal with
            | H : Exists _ (_ :: _) |- _ => apply Exists_cons in H; destruct H
            | H : Exists _ [] |- _ => apply Exists_nil in H; contradiction
            end; congruence ].
Qed.

(** ** Manual mapping *)




(** ** Leaving the loop *)

Lemma shutdown_clears_running {R} (s : state) :
  running (self (post (shutdown (R := R) s))) = false.
Proof.
  open_state s. unfold shutdown. run_py.
  repeat (break_match; cbn); reflexivity.
Qed.

Lemma while_running_until_close (before : list period) (w : World)
    (after : list period) :
  forall me,
    running me = true ->
    Forall (fun p => action p <> CloseWindow) before ->
    let closing := Period w CloseWindow in
    while_running me (before ++ closing :: after)
    = while_running me (before ++ [closing])
    /\ running (fst (while_running me (before ++ closing :: after))) = false
    /\ length (snd (while_running me (before ++ closing :: after)))
       = S (length before).
Proof.
  induction before as [|p rest IH]; intros me Hrun Hopen closing;
    subst closing.
  - cbn [app while_running action found_world window]. rewrite Hrun.
    set (after_close := shutdown (R := unit) _).
    pose proof (shutdown_clears_running (R := unit)
                  (post (loop_body (R := unit) (State me w)))) as Hstop.
    fold after_close in Hstop.
    assert (Hleft : forall schedule,
               while_running (self (post after_close)) schedule
               = (self (post after_close), [])).
    { intros [|p rest]; cbn [while_running]; [|rewrite Hstop]; reflexivity. }
    rewrite !Hleft. cbn. auto.
  - inversion Hopen as [|p0 rest0 Hp Hrest]; subst.
    cbn [app while_running]. rewrite Hrun. cbn [fst snd length].
    set (me' := self (post (window (action p) _))).
    assert (Hrun' : running me' = true).
    { subst me'.
      destruct (window_keeps_running (R := unit) (action p) Hp
                  (post (loop_body (R := unit) (State me (found_world p)))))
        as [-> _].
      destruct (loop_body_keeps_running (R := unit)
                  (State me (found_world p))) as [-> _].
      exact Hrun. }
    destruct (IH me' Hrun' Hrest) as (Hsame & Hstop & Hlen).
    rewrite Hsame in Hstop, Hlen |- *. auto.
Qed.

(** X15: the loop runs no tick when the login does not answer [True];
    after a successful login it runs one tick per period up to and
    including the period in which the window is closed, and none after:
    the periods that follow the shutdown do not matter, and the manager
    is left not running. *)
Theorem control_loop_leaves (login : M bool bool) (s : state) :
  (forall schedule,
      out (def (R' := unit) login s) <> Ok true ->
      snd (control_loop login s schedule) = []) /\
  (forall before w after,
      out (def (R' := unit) login s) = Ok true ->
      running (self (post (def (R' := unit) login s))) = true ->
      Forall (fun p => action p <> CloseWindow) before ->
      let closing := Period w CloseWindow in
      control_loop login s (before ++ closing :: after)
      = control_loop login s (before ++ [closing])
      /\ running (fst (control_loop login s (before ++ closing :: after)))
         = false
      /\ length (snd (control_loop login s (before ++ closing :: after)))
         = S (length before)).
Proof.
  split.
  - intros schedule Hlogin. unfold control_loop.
    destruct (def (R' := unit) login s) as [[[]|v|e] s1 l1];
      cbn in Hlogin |- *; congruence.
  - intros before w after Hlogin Hrun Hopen closing. unfold control_loop.
    destruct (def (R' := unit) login s) as [o s1 l1]; cbn in Hlogin, Hrun.
    subst o. now apply while_running_until_close.
Qed.

(** ** Transport buttons *)

(** X16: the play and next buttons never raise and never change the
    manager or the collaborators, whatever Spotify answers.  The play
    button asks for one snapshot and then sends the command opposite to
    what the snapshot reports (pause when playing, start when not); it
    sends no command when the snapshot fails or is empty.  Without a
    Spotify client neither button calls anything. *)
Theorem transport_buttons (s : state) :
  let play := toggle_play (R := unit) s in
  let next := next_track (R := unit) s in
  (out play = Ok tt /\ post play = s /\ out next = Ok tt /\ post next = s) /\
  (sp (self s) = None -> log play = [] /\ log next = []) /\
  (sp (self s) <> None ->
   log next = [SpNextTrack] /\
   (forall p, sp_playback (world s) = Reply (Some p) ->
              log play = [SpCurrentPlayback;
                          if is_playing p then SpPausePlayback
                          else SpStartPlayback]) /\
   ((forall p, sp_playback (world s) <> Reply (Some p)) ->
    log play = [SpCurrentPlayback])).
Proof.
  open_state s. unfold toggle_play, next_track. run_py.
  repeat split;
    repeat (break_match; cbn); try reflexivity; try congruence;
    intros; repeat (break_match; cbn); try reflexivity; try congruence;
    match goal with
    | H : forall p, _ <> _ |- _ => exfalso; eapply H; reflexivity
    end.
Qed.

(** ** The hold and the pause mirror *)

(** X17: (the player taken as paused as soon as it is told to) on a
    tick that reaches the playback monitor with a target track active,
    no manual match awaited and the buffering hold active, a snapshot
    that reports the source paused ends the hold: a playing player is
    paused by the mirror, the player is not playing when the end of
    track is examined, so the last call of the tick is the skip to the
    next source track, whatever time is left on the target.  The hold
    flag is cleared exactly when Spotify accepts the skip. *)
Theorem hold_ends_when_source_reports_pause (s s1 : state)
    (sp_track : SpTrack) (snapshot : Playback) (calls : list call) :
  sync_logic_head s = Run (Ok (sp_track, snapshot)) s1 calls ->
  current_tidal_track (self s1) <> None ->
  waiting_for_user_selection (self s1) = false ->
  is_paused_waiting (self s) = true ->
  is_playing snapshot = false ->
  let r := sync_logic (R := unit) s in
  playing (vlc (world (post r))) = false /\
  (playing (vlc (world s1)) = true -> In VlcPause (log r)) /\
  last (log r) = Some SpNextTrack /\
  (is_paused_waiting (self (post r)) = false
   <-> sp_rejects (world s1) SpNextTrack = false).
Proof.
  intros Hhead Htarget Hwaiting Hhold Hpaused r.
  destruct (sync_logic_head_quiet s) as [Hflag _].
  assert (Hclient : sp (self s1) <> None).
  { destruct (tame_sync_logic_head sp (fun _ => True)) with (s := s)
      as [Hsp _]; try (intros; first [exact I | reflexivity]).
    rewrite Hhead in Hsp. cbn in Hsp. rewrite Hsp.
    intros Hnone. revert Hhead. clear - Hnone.
    open_state s. unfold sync_logic_head. run_py. discriminate. }
  rewrite Hhead in Hflag. cbn in Hflag. rewrite <- Hflag in Hhold.
  clear Hflag.
  assert (Hr : r = sync_logic (R := unit) s) by reflexivity.
  clearbody r. revert Hr.
  unfold sync_logic, def, bind at 1. rewrite Hhead. cbn [fst snd].
  clear Hhead.
  open_state s1. destruct current_tidal_track0 as [target|]; [|contradiction].
  clear Htarget. destruct snapshot as [it live progress volume].
  cbn in Hpaused. subst live.
  destruct sp0 as [[]|]; [|contradiction]. clear Hclient.
  run_py.
  repeat (break_match; cbn);
    intros ->; cbn;
    reflect_tests; subst; cbn in *; try discriminate;
    repeat split; try reflexivity; try congruence; try discriminate;
    rewrite ?in_app_iff; cbn [In]; auto;
    try (rewrite ?app_nil_r, ?app_assoc; apply last_snoc);
    try (intros; repeat rewrite last_app; cbn; reflexivity).
Qed.

(** ** After a failed start *)

(** The head of a tick whose snapshot names the held track leaves what
    was settled, status included, and resolves nothing. *)
Lemma sync_logic_head_same_item (me : SyncManager) (w : World)
    (snapshot : Playback) (again current : SpTrack) :
  sp me <> None ->
  sp_playback w = Reply (Some snapshot) ->
  item snapshot = Some again ->
  current_spotify_track me = Some current ->
  sp_id again = sp_id current ->
  let h := sync_logic_head (State me w) in
  settled (self (post h)) = settled me
  /\ Forall (fun c => is_resolution c = false) (log h).
Proof.
  intros Hclient Hsnap Hitem Hheld Hsame h.
  assert (Hh : h = sync_logic_head (State me w)) by reflexivity.
  clearbody h. revert Hh.
  destruct snapshot as [it live progress volume]. cbn in Hitem. subst it.
  destruct me, w. cbn in Hclient, Hsnap, Hheld |- *. subst.
  destruct sp0 as [[]|]; [|contradiction].
  destruct again as [id ? ? ? ?], current as [id' ? ? ? ?].
  cbn in Hsame. subst id'. run_py.
  repeat (first [ rewrite String.eqb_refl | break_match ]; cbn);
    intros ->; cbn; split; try reflexivity; repeat constructor.
Qed.

(** X18: a playback start that failed is not retried.  After the tick
    of a track change whose start was refused by the session check,
    every tick whose snapshot still names that source track, whatever
    the collaborators answer by then (a session that is valid again
    included), makes no mapping fetch, search, session check or
    stream-URL request and no player start, and leaves the status
    "Playback Error - Stopped" and the tracks in hand. *)
Theorem failed_start_is_not_retried (s : state) (snapshot : Playback)
    (sp_track : SpTrack) (t : TidalTrack)
    (w' : World) (snapshot' : Playback) (again : SpTrack) :
  commits_switch s = true ->
  sp_playback (world s) = Reply (Some snapshot) ->
  item snapshot = Some sp_track ->
  out (search_tidal_match (R := unit) sp_track s) = Ok (Some t) ->
  check_login (world s) (checks_made (world s)) = Reply false ->
  check_login (world s) (S (checks_made (world s))) = Reply false ->
  sp_playback w' = Reply (Some snapshot') ->
  item snapshot' = Some again ->
  sp_id again = sp_id sp_track ->
  let r := sync_logic (R := unit) s in
  let r' := sync_logic (R := unit) (State (self (post r)) w') in
  Forall (fun c => is_resolution c = false) (log r') /\
  settled (self (post r'))
  = ("Playback Error - Stopped", (Some sp_track, Some t, false)).
Proof.
  intros Hswitch Hsnap Hitem Hsearch Hfirst Hagain Hsnap' Hitem' Hsame r r'.
  assert (Hsettled : settled (self (post r))
                     = ("Playback Error - Stopped",
                        (Some sp_track, Some t, false))).
  { destruct (sync_logic_head_expired s snapshot sp_track t
                Hswitch Hsnap Hitem Hsearch Hfirst Hagain) as [Hhead _].
    destruct (sync_logic_after_head (fun _ => True) s I I (fun _ => I) I I)
      as [Hkeep _].
    cbn zeta in Hkeep. subst r. now rewrite Hkeep. }
  assert (Hclient : sp (self (post r)) <> None).
  { destruct (sync_logic_calls sp (fun _ => True)) with (R := unit) (s := s)
      as [Hsp _]; try (intros; first [exact I | reflexivity]).
    subst r. rewrite Hsp. clear - Hswitch. unfold commits_switch in Hswitch.
    destruct (sp (self s)); [discriminate | discriminate Hswitch]. }
  assert (Hheld : current_spotify_track (self (post r)) = Some sp_track).
  { unfold settled, tracks_in_hand in Hsettled. congruence. }
  destruct (sync_logic_head_same_item (self (post r)) w' snapshot' again
              sp_track Hclient Hsnap' Hitem' Hheld Hsame) as [Hkeep Hcalls].
  destruct (sync_logic_after_head (fun c => is_resolution c = false)
              (State (self (post r)) w')
              eq_refl eq_refl (fun _ => eq_refl) eq_refl eq_refl)
    as [Hmon Hlog].
  cbn zeta in Hmon, Hlog. subst r'. split; [now apply Hlog|].
  rewrite Hmon, Hkeep. exact Hsettled.
Qed.

(** ** A player that reports no duration *)

(** X19: on a tick that reaches the playback monitor with a target
    track active, no manual match awaited, auto-favorite enabled and
    the track not yet favorited, if source and player are both playing
    and the player reports a duration of 0, the progress ratio divides
    by zero: the tick ends there with [ZeroDivisionError], after the
    calls of its head only, so the end of track is not examined; the
    loop body catches the exception and ends normally, without calling
    the status callback even when one is registered. *)
Theorem zero_duration_aborts_tick (s s1 : state) (sp_track : SpTrack)
    (snapshot : Playback) (calls : list call) :
  sync_logic_head s = Run (Ok (sp_track, snapshot)) s1 calls ->
  current_tidal_track (self s1) <> None ->
  waiting_for_user_selection (self s1) = false ->
  auto_favorite (self s1) = true ->
  current_song_favorited (self s1) = false ->
  is_playing snapshot = true ->
  playing (vlc (world s1)) = true ->
  duration (vlc (world s1)) = 0 ->
  sync_logic (R := unit) s = Run (Raise ZeroDivisionError) s1 calls /\
  loop_body (R := unit) s = Run (Ok tt) s1 calls.
Proof.
  intros Hhead Htarget Hwaiting Hauto Hfresh Hlive Hbusy Hzero.
  assert (Htick : sync_logic (R := unit) s
                  = Run (Raise ZeroDivisionError) s1 calls).
  { unfold sync_logic, def. rewrite bind_unfold, Hhead. cbn [fst snd].
    clear Hhead.
    destruct snapshot as [it live progress volume]. cbn in Hlive. subst live.
    destruct s1 as [me1 w1]. destruct me1, w1. destruct vlc0.
    cbn in Htarget, Hwaiting, Hauto, Hfresh, Hbusy, Hzero |- *. subst.
    destruct current_tidal_track0 as [target|]; [|contradiction].
    run_py. now rewrite app_nil_r. }
  split; [exact Htick|].
  unfold loop_body, try_except. rewrite bind_unfold, Htick. cbn.
  now rewrite app_nil_r.
Qed.

End Engine.

(** * Closed instances *)

(** ** Instances of the theorems *)

Lemma manual_map_track_without_source_witness :
  manual_map_track tidalapi_names tidalapi_str (R := unit) tidal_near
    (State logged_in_manager (calm_world None [] (player_at false 0 0)))
  = Run (Ok tt)
      (State logged_in_manager (calm_world None [] (player_at false 0 0))) [].
Proof. apply manual_map_track_without_source. reflexivity. Defined.

(** The scenario of a far candidate followed by two qualifying ones, the
    second of them exact: the first qualifying one is returned. *)
Lemma search_is_first_fit_witness :
  out (search_tidal_match (R := unit) track_a
         (State logged_in_manager
            (calm_world None [tidal_far; tidal_near; tidal_exact]
               (player_at false 0 0))))
  = Ok (Some tidal_near).
Proof.
  refine (proj1 (search_is_first_fit track_a
                   (State logged_in_manager
                      (calm_world None [tidal_far; tidal_near; tidal_exact]
                         (player_at false 0 0)))
                   "Ann" [] eq_refl _)
            [tidal_far] tidal_near [tidal_exact] eq_refl _ _).
  - intros tidal_id Hmap. vm_compute in Hmap. discriminate Hmap.
  - repeat constructor.
  - vm_compute. discriminate.
Defined.

Lemma mapping_bypasses_search_witness :
  search_tidal_match (R := unit) track_a
    (State logged_in_manager
       (mapped_world "spA" 3 (Reply tidal_exact) [tidal_near]))
  = Run (Ok (Some tidal_exact))
      (State logged_in_manager
         (mapped_world "spA" 3 (Reply tidal_exact) [tidal_near]))
      [TidalTrackById 3].
Proof.
  refine (proj1 (mapping_bypasses_search track_a
                   (State logged_in_manager
                      (mapped_world "spA" 3 (Reply tidal_exact) [tidal_near]))
                   3 _) tidal_exact eq_refl).
  vm_compute. reflexivity.
Defined.

Lemma session_guard_witness :
  attempt_play_tidal tidalapi_names tidalapi_str (R := unit) tidal_near true
    (State logged_in_manager
       (expired_world None [] (player_at false 0 0)))
  = Run (Ok false)
      (State (set_status "Session Expired" logged_in_manager)
         (set_checks_made 2 (expired_world None [] (player_at false 0 0))))
      [TidalCheckLogin; TidalCheckLogin].
Proof.
  pose proof (session_guard tidalapi_names tidalapi_str tidal_near true
                (State logged_in_manager
                   (expired_world None [] (player_at false 0 0)))) as Hguard.
  cbn zeta in Hguard.
  destruct Hguard as (_ & _ & _ & Hinvalid).
  destruct (Hinvalid eq_refl) as (_ & _ & Hagain).
  exact (proj2 (Hagain eq_refl)).
Defined.

Lemma quality_fallback_witness :
  exists rest,
    log (attempt_play_tidal tidalapi_names tidalapi_str (R := unit) tidal_near true
           (State logged_in_manager (picky_world (Some "high_lossless"))))
    = [TidalCheckLogin]
      ++ url_requests tidal_near [Some "hi_res_lossless"; Some "high_lossless"]
      ++ VlcPlayUrl "stream" :: rest
    /\ Forall (fun c => is_url_request c = false) rest.
Proof.
  refine (proj1 (proj2 (quality_fallback tidalapi_names tidalapi_str tidal_near true
                          (State logged_in_manager
                             (picky_world (Some "high_lossless"))) eq_refl))
            [Some "hi_res_lossless"] (Some "high_lossless") [] "stream"
            eq_refl _ eq_refl _).
  - repeat constructor.
  - discriminate.
Defined.

Lemma anti_flicker_guard_witness :
  let s := State (playing_manager track_a tidal_near)
             (calm_world (Some (snapshot_of track_b true 0)) []
                (player_at true 195000 198000)) in
  current_spotify_track (self (post (sync_logic tidalapi_names tidalapi_str (R := unit) s)))
  = Some track_a.
Proof.
  intros s.
  destruct (anti_flicker_guard tidalapi_names tidalapi_str s (snapshot_of track_b true 0)
              track_b eq_refl eq_refl eq_refl eq_refl eq_refl)
    as (_ & Hself & _).
  - cbn. lia.
  - rewrite Hself. reflexivity.
Defined.

(** Two periods in which every network call fails: both ticks run. *)
Lemma control_loop_survives_ticks_witness :
  length (snd (control_loop tidalapi_names tidalapi_str (ret true)
                 (State logged_in_manager (stormy_world (player_at false 0 0)))
                 [Period (stormy_world (player_at false 0 0)) NoAction;
                  Period (stormy_world (player_at true 10 0)) PressNext]))
  = 2%nat.
Proof.
  refine (proj2 (proj2 (control_loop_survives_ticks tidalapi_names tidalapi_str (ret true)))
            (State logged_in_manager (stormy_world (player_at false 0 0)))
            [Period (stormy_world (player_at false 0 0)) NoAction;
             Period (stormy_world (player_at true 10 0)) PressNext]
            eq_refl eq_refl _).
  repeat constructor; discriminate.
Defined.

(** Source 1500 ms from its end, target 8000 ms from its end, no hold
    yet: the source is paused and the hold flag is set. *)
Lemma buffering_hold_witness :
  let s := State (playing_manager track_a tidal_near)
             (calm_world (Some (snapshot_of track_a true 198500)) []
                (player_at true 190000 198000)) in
  let r := sync_logic tidalapi_names tidalapi_str (R := unit) s in
  In SpPausePlayback (log r) /\ is_paused_waiting (self (post r)) = true.
Proof.
  intros s r.
  pose proof (buffering_hold tidalapi_names tidalapi_str s
                (post (sync_logic_head tidalapi_names tidalapi_str s))
                track_a (snapshot_of track_a true 198500)
                (log (sync_logic_head tidalapi_names tidalapi_str s))) as Hhold.
  cbn zeta in Hhold.
  destruct Hhold as (Hpause & _ & Hflag);
    [ vm_compute; reflexivity | vm_compute; discriminate
    | vm_compute; reflexivity | vm_compute; reflexivity | ].
  assert (Hactivates :
            sp_duration_ms track_a
            - progress_ms (snapshot_of track_a true 198500) < 3000
            /\ duration (vlc (world (post (sync_logic_head tidalapi_names tidalapi_str s))))
               - time (vlc (world (post (sync_logic_head tidalapi_names tidalapi_str s))))
               > 5000
            /\ is_paused_waiting (self s) = false)
    by (vm_compute; repeat split; reflexivity).
  split.
  - apply Hpause. exact Hactivates.
  - apply Hflag. split; [right; exact Hactivates|].
    vm_compute. intros [Hleft|Hbusy]; discriminate.
Defined.

(** A favorite accepted on the first of two steady ticks is not asked
    for again on the second; on the first, the call is issued once, for
    the target track, and sets the flag. *)
Lemma auto_favorite_once_witness :
  let me := set_auto_favorite true (playing_manager track_a tidal_near) in
  let w := calm_world (Some (snapshot_of track_a true 185000)) []
             (player_at true 185000 198000) in
  let r := sync_logic tidalapi_names tidalapi_str (R := unit) (State me w) in
  (length (List.filter tick_marks
             (snd (while_running tidalapi_names tidalapi_str me
                     [Period w NoAction; Period w NoAction]))) <= 1)%nat /\
  List.filter is_favorite (log r) = [TidalAddFavorite (t_id tidal_near)] /\
  current_song_favorited (self (post r)) = true.
Proof.
  intros me w r.
  pose proof (auto_favorite_once tidalapi_names tidalapi_str)
    as (_ & Honce & _ & Hfires & _).
  split.
  - refine (proj1 (Honce me [Period w NoAction; Period w NoAction] _)).
    vm_compute. repeat constructor.
  - destruct (Hfires (State me w)
                (post (sync_logic_head tidalapi_names tidalapi_str
                         (State me w)))
                track_a (snapshot_of track_a true 185000)
                (log (sync_logic_head tidalapi_names tidalapi_str
                        (State me w)))
                tidal_near)
      as (Hcall & _ & Hflag);
      [ vm_compute; reflexivity | vm_compute; reflexivity
      | vm_compute; reflexivity | vm_compute; reflexivity
      | vm_compute; reflexivity | ].
    assert (Hdue :
              playing (vlc (world (post r))) = true
              /\ duration (vlc (world (post r))) <> 0
              /\ (below_090 < inject_Z (time (vlc (world (post r))))
                              / inject_Z (duration (vlc (world (post r)))))%Q).
    { split; [vm_compute; reflexivity|].
      split; [vm_compute; discriminate | vm_compute; reflexivity]. }
    split; [exact (Hcall Hdue)|].
    apply Hflag. split; [exact Hdue|]. exists tt. vm_compute. reflexivity.
Defined.

(** ** Where the claims as stated fail *)

(** C1: the hold is active, a target track is active, no manual match is
    awaited and the target has 500 ms left, yet the tick neither skips
    the source to its next track nor clears the flag: the anti-flicker
    return comes first. *)
Lemma hold_survives_suppressed_tick :
  let s := State (set_is_paused_waiting true
                    (playing_manager track_a tidal_near))
             (calm_world (Some (snapshot_of track_b true 0)) []
                (player_at true 197500 198000)) in
  let r := sync_logic tidalapi_names tidalapi_str (R := unit) s in
  current_tidal_track (self s) = Some tidal_near /\
  waiting_for_user_selection (self s) = false /\
  is_paused_waiting (self s) = true /\
  duration (vlc (world s)) - time (vlc (world s)) < 1000 /\
  ~ (In SpNextTrack (log r) /\ is_paused_waiting (self (post r)) = false).
Proof.
  vm_compute. repeat split; try reflexivity.
  intros [_ Hflag]. discriminate Hflag.
Qed.

(** C4: the session is invalid and stays invalid, and the guard sends no
    refresh request (the claim has exactly one). *)
Lemma session_guard_sends_no_refresh :
  let s := State logged_in_manager
             (expired_world None [] (player_at false 0 0)) in
  let r := check_and_refresh_session (R := unit) s in
  check_login (world s) 0 = Reply false /\
  out r = Ok false /\
  length (List.filter is_refresh (log r)) <> 1%nat.
Proof. vm_compute. repeat split; try reflexivity. discriminate. Qed.

(** C6: the snapshot item differs from the held track and the player is
    playing with 0 ms (less than 5000 ms) left, yet the switch goes
    through: the new track is committed and searched for. *)
Lemma switch_not_suppressed_at_zero :
  let s := State (playing_manager track_a tidal_near)
             (calm_world (Some (snapshot_of track_b true 0)) []
                (player_at true 198000 198000)) in
  let r := sync_logic tidalapi_names tidalapi_str (R := unit) s in
  track_changed (self s) track_b = true /\
  playing (vlc (world s)) = true /\
  duration (vlc (world s)) - time (vlc (world s)) < 5000 /\
  current_spotify_track (self (post r)) = Some track_b /\
  In (TidalSearch "Beta Bob" 10) (log r).
Proof.
  vm_compute. repeat split; try reflexivity. right. left. reflexivity.
Qed.

(** C8: two ticks on the same track, both past 90 % with the player
    playing, the favorite service refusing: the favorite call is issued
    on both ticks, twice for the one track. *)
Lemma favorite_call_repeated_when_refused :
  let me := set_auto_favorite true (playing_manager track_a tidal_near) in
  let w := refusing_world (Some (snapshot_of track_a true 185000))
             (player_at true 185000 198000) in
  let ticks := snd (while_running tidalapi_names tidalapi_str me
                      [Period w NoAction; Period w NoAction]) in
  Forall (fun tick => commits_switch (fst tick) = false) ticks /\
  favorite_calls ticks = 2%nat.
Proof. vm_compute. split; [repeat constructor | reflexivity]. Qed.

(** C9: before the Spotify login has produced a client, [shutdown]
    stops the player without any source pause. *)
Lemma shutdown_without_client :
  let s := State fresh_manager (calm_world None [] (player_at true 0 0)) in
  let calls := log (shutdown (R := unit) s) in
  ~ (In SpPausePlayback calls /\ In VlcStop calls).
Proof.
  vm_compute. intros [[Hpause|[]] _]. discriminate Hpause.
Qed.

(** ** Instances of the further properties *)

Ltac by_computation :=
  vm_compute;
  first [ reflexivity | discriminate
        | let H := fresh in intros H; discriminate H ].

Lemma get_credentials_sources_witness :
  get_credentials dotenv stored_keyring
  = Got (Some "id-ring", Some "secret-ring").
Proof.
  refine (proj1 (get_credentials_sources dotenv stored_keyring eq_refl) _).
  vm_compute. split; reflexivity.
Defined.

Lemma migration_takes_over_witness :
  exists k',
    migrate_credentials_to_keyring dotenv (empty_keyring (fun _ => false))
    = Got k' /\
    forall env', get_credentials env' k'
                 = Got (Some "id-env", Some "secret-env").
Proof.
  apply (migration_takes_over dotenv (empty_keyring (fun _ => false))
           "id-env" "secret-env"); by_computation.
Defined.

Lemma migration_idempotent_witness :
  migrate_credentials_to_keyring dotenv stored_keyring = Got stored_keyring.
Proof.
  refine (proj1 (migration_idempotent dotenv stored_keyring) _ eq_refl).
  by_computation.
Defined.

(** The keyring takes the client id and refuses the secret: a later
    migration into a keyring that accepts everything stores nothing. *)
Lemma partial_migration_not_repaired_witness :
  exists k1,
    migrate_credentials_to_keyring dotenv
      (empty_keyring (String.eqb "SPOTIFY_CLIENT_SECRET")) = Got k1 /\
    migrate_credentials_to_keyring dotenv
      {| entries := entries k1; unreadable := false;
         refuses := fun _ => false |}
    = Got {| entries := entries k1; unreadable := false;
             refuses := fun _ => false |}.
Proof.
  destruct (partial_migration_not_repaired dotenv
              (empty_keyring (String.eqb "SPOTIFY_CLIENT_SECRET"))
              "id-env" "secret-env")
    as (k1 & Hfirst & _ & Hlater); try by_computation.
  exists k1. split; [exact Hfirst|].
  exact (proj1 (Hlater dotenv (fun _ => false))).
Defined.


(** The snapshot names the held track: the target track stays. *)
Lemma steady_tick_resolves_nothing_witness :
  let s := State (playing_manager track_a tidal_near)
             (calm_world (Some (snapshot_of track_a true 1000)) []
                (player_at true 1000 198000)) in
  let r := sync_logic tidalapi_names tidalapi_str (R := unit) s in
  Forall (fun c => is_resolution c = false) (log r) /\
  current_tidal_track (self (post r)) = Some tidal_near.
Proof.
  intros s r.
  destruct (steady_tick_resolves_nothing tidalapi_names tidalapi_str s)
    as (Hcalls & _ & Htarget & _); [by_computation|].
  split; [exact Hcalls | exact Htarget].
Defined.

Lemma source_unavailable_tick_witness :
  sync_logic tidalapi_names tidalapi_str (R := unit)
    (State logged_in_manager (stormy_world (player_at true 10 100)))
  = Run (Ok tt)
      (State (set_status "Spotify Error" logged_in_manager)
         (stormy_world (player_at true 10 100)))
      [SpCurrentPlayback].
Proof.
  refine (proj1 (proj2 (source_unavailable_tick tidalapi_names tidalapi_str
                          (State logged_in_manager
                             (stormy_world (player_at true 10 100)))) _)
            SpotifyException eq_refl).
  discriminate.
Defined.

(** The only candidate is 50 s shorter than the source track. *)
Lemma unmatched_track_waits_witness :
  let s := State logged_in_manager
             (calm_world (Some (snapshot_of track_a true 0)) [tidal_far]
                (player_at true 0 0)) in
  let r := sync_logic tidalapi_names tidalapi_str (R := unit) s in
  waiting_for_user_selection (self (post r)) = true /\
  playing (vlc (world (post r))) = false.
Proof.
  intros s r.
  destruct (unmatched_track_waits tidalapi_names tidalapi_str s
              (snapshot_of track_a true 0) track_a)
    as (_ & _ & _ & Hwaiting & Hstopped & _); try by_computation.
  split; [exact Hwaiting | exact Hstopped].
Defined.

Lemma expired_session_on_switch_witness :
  let s := State logged_in_manager
             (expired_world (Some (snapshot_of track_a true 0)) [tidal_near]
                (player_at false 0 0)) in
  let r := sync_logic tidalapi_names tidalapi_str (R := unit) s in
  status (self (post r)) = "Playback Error - Stopped" /\
  current_tidal_track (self (post r)) = Some tidal_near.
Proof.
  intros s r.
  destruct (expired_session_on_switch tidalapi_names tidalapi_str s
              (snapshot_of track_a true 0) track_a tidal_near)
    as (Hstatus & _ & Htarget & _); try by_computation.
  split; [exact Hstatus | exact Htarget].
Defined.

(** The second quality resolves and the source was paused: the player
    gets the URL and the source is started and sent to position 0. *)
Lemma playback_start_witness :
  let s := State logged_in_manager (picky_world (Some "high_lossless")) in
  let r := attempt_play_tidal tidalapi_names tidalapi_str (R := unit) tidal_near false s in
  out r = Ok true /\
  status (self (post r)) = "Playing: Alpha [LOSSLESS]" /\
  log r = [TidalCheckLogin; TidalGetUrl (Some "hi_res_lossless") 2;
           TidalGetUrl (Some "high_lossless") 2; VlcPlayUrl "stream";
           SpStartPlayback; SpSeekTrack 0].
Proof.
  intros s r.
  destruct (playback_start tidalapi_names tidalapi_str tidal_near false s
              [Some "hi_res_lossless"] (Some "high_lossless") [] "stream")
    as [Hstarts _]; try by_computation; [repeat constructor|].
  destruct (Hstarts (player_at true 0 0) eq_refl)
    as (Hout & Hstatus & _ & _ & Hlog); [repeat constructor|].
  split; [exact Hout|]. split; [|exact Hlog].
  subst r. rewrite Hstatus. vm_compute. reflexivity.
Defined.


(** The window is closed in the second of three periods. *)
Lemma control_loop_leaves_witness :
  let w := stormy_world (player_at false 0 0) in
  length (snd (control_loop tidalapi_names tidalapi_str (ret true)
                 (State logged_in_manager w)
                 [Period w NoAction; Period w CloseWindow;
                  Period w NoAction]))
  = 2%nat.
Proof.
  intros w.
  destruct (proj2 (control_loop_leaves tidalapi_names tidalapi_str (ret true)
                     (State logged_in_manager w))
              [Period w NoAction] w [Period w NoAction] eq_refl eq_refl)
    as (_ & _ & Hticks).
  - repeat constructor; discriminate.
  - exact Hticks.
Defined.

Lemma transport_buttons_witness :
  log (toggle_play (R := unit)
         (State logged_in_manager
            (calm_world (Some (snapshot_of track_a true 0)) []
               (player_at false 0 0))))
  = [SpCurrentPlayback; SpPausePlayback].
Proof.
  refine (proj1 (proj2 (proj2 (proj2 (transport_buttons
                                        (State logged_in_manager
                                           (calm_world
                                              (Some (snapshot_of track_a true 0))
                                              [] (player_at false 0 0))))) _))
            (snapshot_of track_a true 0) eq_refl).
  discriminate.
Defined.

(** The hold is active with 98 s left on the target, and the source
    reports the pause of the hold: it is skipped to its next track. *)
Lemma hold_ends_when_source_reports_pause_witness :
  let s := State (set_is_paused_waiting true
                    (playing_manager track_a tidal_near))
             (calm_world (Some (snapshot_of track_a false 199000)) []
                (player_at true 100000 198000)) in
  let r := sync_logic tidalapi_names tidalapi_str (R := unit) s in
  In VlcPause (log r) /\ last (log r) = Some SpNextTrack.
Proof.
  intros s r.
  destruct (hold_ends_when_source_reports_pause tidalapi_names tidalapi_str s
              (post (sync_logic_head tidalapi_names tidalapi_str s))
              track_a (snapshot_of track_a false 199000)
              (log (sync_logic_head tidalapi_names tidalapi_str s)))
    as (_ & Hmirror & Hskip & _); try by_computation.
  split; [apply Hmirror; by_computation | exact Hskip].
Defined.

(** The session is valid again on the next tick: no new attempt. *)
Lemma failed_start_is_not_retried_witness :
  let s := State logged_in_manager
             (expired_world (Some (snapshot_of track_a true 0)) [tidal_near]
                (player_at false 0 0)) in
  let w' := calm_world (Some (snapshot_of track_a true 5000)) [tidal_near]
              (player_at false 0 0) in
  let r := sync_logic tidalapi_names tidalapi_str (R := unit) s in
  let r' := sync_logic tidalapi_names tidalapi_str (R := unit) (State (self (post r)) w') in
  Forall (fun c => is_resolution c = false) (log r') /\
  status (self (post r')) = "Playback Error - Stopped".
Proof.
  intros s w' r r'.
  destruct (failed_start_is_not_retried tidalapi_names tidalapi_str s
              (snapshot_of track_a true 0) track_a tidal_near
              w' (snapshot_of track_a true 5000) track_a)
    as [Hcalls Hsettled]; try by_computation.
  split; [exact Hcalls|].
  exact (f_equal fst Hsettled).
Defined.

(** A stream that plays before the player knows its length: the
    status callback, though registered, is not called. *)
Lemma zero_duration_aborts_tick_witness :
  let s := State (watched_manager track_a tidal_near)
             (calm_world (Some (snapshot_of track_a true 1000)) []
                (player_at true 0 0)) in
  out (loop_body tidalapi_names tidalapi_str (R := unit) s) = Ok tt /\
  log (loop_body tidalapi_names tidalapi_str (R := unit) s) = [SpCurrentPlayback].
Proof.
  intros s.
  destruct (zero_duration_aborts_tick tidalapi_names tidalapi_str s
              (post (sync_logic_head tidalapi_names tidalapi_str s))
              track_a (snapshot_of track_a true 1000)
              (log (sync_logic_head tidalapi_names tidalapi_str s)))
    as [_ Hbody]; try by_computation.
  rewrite Hbody. split; by_computation.
Defined.
